(** * n8n-md2docs: the markdown-to-docx translation engine

    A shallow embedding of [src/services/docxConverter.ts] and the
    properties of its inline formatter, block translator and document
    assembler.

    Conventions.
    - Input text is a [list ascii]: one element per code unit, read as
      Latin-1.  Code units above 255 do not occur in the model.
    - Constant strings of the source (fonts, colours, token kinds,
      numbering references, log lines) are [string]s.
    - JavaScript numbers that only count or hold small constants are [nat].
    - [marked.lexer] is external: the translator is parametrised by it.
    - [Packer.toBuffer] is external: the model stops at the options handed
      to [new Document]. *)

From Stdlib Require Import Ascii String List Arith Lia Bool.
From Stdlib Require Import DecimalString DecimalNat.
Import ListNotations.
Open Scope string_scope.
Open Scope list_scope.
Open Scope nat_scope.

(* ================================================================== *)
(** ** The JavaScript string built-ins the converter calls *)
(* ================================================================== *)

Module JS.

Definition jsstring := list ascii.

(** A source literal, as a sequence of code units. *)
Definition str (s : string) : jsstring := list_ascii_of_string s.

Definition LF : ascii := ascii_of_nat 10.
Definition CR : ascii := ascii_of_nat 13.

Definition isEmpty (s : jsstring) : bool :=
  match s with [] => true | _ :: _ => false end.

(** [stripPrefix p s] is [Some rest] when [s = p ++ rest]. *)
Fixpoint stripPrefix (p s : jsstring) : option jsstring :=
  match p, s with
  | [], _ => Some s
  | _ :: _, [] => None
  | a :: p', b :: s' => if Ascii.eqb a b then stripPrefix p' s' else None
  end.

(** [s.startsWith(p)] and [s.endsWith(p)]. *)
Definition startsWith (s p : jsstring) : bool :=
  match stripPrefix p s with Some _ => true | None => false end.

Definition endsWith (s p : jsstring) : bool :=
  startsWith (rev s) (rev p).

(** [s.slice(a, -b)] for literal [a] and [b]: from index [min a |s|] up to
    index [max (|s| - b) 0], empty when the bounds cross. *)
Definition slice (s : jsstring) (a b : nat) : jsstring :=
  firstn (length s - b - a) (skipn a s).

(** White space of [String.prototype.trim] among the 8-bit code units:
    TAB, LF, VT, FF, CR, SPACE and NO-BREAK SPACE. *)
Definition isWhiteSpace (c : ascii) : bool :=
  let n := nat_of_ascii c in
  (9 <=? n) && (n <=? 13) || (n =? 32) || (n =? 160).

Fixpoint trimStart (s : jsstring) : jsstring :=
  match s with
  | [] => []
  | c :: s' => if isWhiteSpace c then trimStart s' else s
  end.

Definition trimEnd (s : jsstring) : jsstring := rev (trimStart (rev s)).

Definition trim (s : jsstring) : jsstring := trimEnd (trimStart s).

(** [s.split('\n')]; [cur] is the piece being read. *)
Fixpoint splitLines (s cur : jsstring) : list jsstring :=
  match s with
  | [] => [cur]
  | c :: s' =>
      if Ascii.eqb c LF then cur :: splitLines s' []
      else splitLines s' (cur ++ [c])
  end.

(** [const CUSTOM_PARAGRAPH_BREAK = '\\p']: backslash, then p. *)
Definition CUSTOM_PARAGRAPH_BREAK : jsstring := str "\p".

(** [s.split(CUSTOM_PARAGRAPH_BREAK)], the two code units of the separator
    written out. *)
Fixpoint splitBreaks (s cur : jsstring) : list jsstring :=
  match s with
  | [] => [cur]
  | c :: s' =>
      match s' with
      | d :: s'' =>
          if Ascii.eqb c "\" && Ascii.eqb d "p"
          then cur :: splitBreaks s'' []
          else splitBreaks s' (cur ++ [c])
      | [] => [cur ++ [c]]
      end
  end.

(** *** The regular expression [/(\*\*.*?\*\*|\*.*?\*|`.*?`)/g]

    Without the [s] flag [.] takes any code unit but a line terminator;
    of the four line terminators LF and CR are 8-bit. *)
Definition isLineTerminator (c : ascii) : bool :=
  Ascii.eqb c LF || Ascii.eqb c CR.

(** [.*?] followed by the literal [close]: the lazy quantifier takes the
    fewest code units after which [close] matches.  The result is the
    text matched (closing delimiter included) and what follows it. *)
Fixpoint lazyUntil (close s : jsstring) : option (jsstring * jsstring) :=
  match stripPrefix close s with
  | Some rest => Some (close, rest)
  | None =>
      match s with
      | [] => None
      | c :: s' =>
          if isLineTerminator c then None
          else match lazyUntil close s' with
               | Some (m, rest) => Some (c :: m, rest)
               | None => None
               end
      end
  end.

(** One alternative [open .*? close] tried at the head of [s]. *)
Definition matchSpan (open close s : jsstring)
  : option (jsstring * jsstring) :=
  match stripPrefix open s with
  | Some s1 =>
      match lazyUntil close s1 with
      | Some (m, rest) => Some (open ++ m, rest)
      | None => None
      end
  | None => None
  end.

Definition orElse {A} (x y : option A) : option A :=
  match x with Some _ => x | None => y end.

(** The whole pattern at the head of [s]: alternatives in source order. *)
Definition matchInline (s : jsstring) : option (jsstring * jsstring) :=
  orElse (matchSpan (str "**") (str "**") s)
    (orElse (matchSpan (str "*") (str "*") s)
            (matchSpan (str "`") (str "`") s)).

(** [line.split(re)] for the pattern above: the pieces between matches
    interleaved with the captured group.  [s] is the text from the
    search position on, [cur] the piece since the last match.  A match
    is never empty, so the search position passes every match; [fuel]
    bounds the number of search positions. *)
Fixpoint splitInlineFrom (fuel : nat) (s cur : jsstring) : list jsstring :=
  match s with
  | [] => [cur]
  | c :: s' =>
      match fuel with
      | 0 => [cur ++ s]
      | S fuel' =>
          match matchInline s with
          | Some (m, rest) => cur :: m :: splitInlineFrom fuel' rest []
          | None => splitInlineFrom fuel' s' (cur ++ [c])
          end
      end
  end.

Definition splitInline (s : jsstring) : list jsstring :=
  splitInlineFrom (length s) s [].

(** Template literal interpolation of a non-negative integer. *)
Definition numberToString (n : nat) : string :=
  NilEmpty.string_of_uint (Nat.to_uint n).

End JS.

Import JS.

(* ================================================================== *)
(** ** docx option objects *)
(* ================================================================== *)

(** Options of [new TextRun({...})].  An absent [bold] or [italics] is
    [false], an absent [break] is [None]. *)
Record TextRun := mkTextRun {
  text : jsstring;
  bold : bool;
  italics : bool;
  font : string;
  size : nat;
  break : option nat
}.

(** The three style flags of a run.  Monospace is carried by the font. *)
Definition isMonospace (r : TextRun) : bool :=
  String.eqb (font r) "Courier New".

Definition flagCount (r : TextRun) : nat :=
  (if bold r then 1 else 0) + (if italics r then 1 else 0)
  + (if isMonospace r then 1 else 0).

(* ================================================================== *)
(** ** processFormattedText *)
(* ================================================================== *)

Definition boldRun (t : jsstring) : TextRun :=
  mkTextRun t true false "New Times Roman" 24 None.
Definition italicRun (t : jsstring) : TextRun :=
  mkTextRun t false true "New Times Roman" 24 None.
Definition codeRun (t : jsstring) : TextRun :=
  mkTextRun t false false "Courier New" 24 None.
Definition plainRun (t : jsstring) : TextRun :=
  mkTextRun t false false "New Times Roman" 24 None.
Definition breakRun : TextRun :=
  mkTextRun [] false false "New Times Roman" 24 (Some 1).

(** The callback of [.map] over the parts of one line. *)
Definition partToRun (part : jsstring) : TextRun :=
  if startsWith part (str "**") && endsWith part (str "**") then
    boldRun (slice part 2 2)
  else if startsWith part (str "*") && endsWith part (str "*")
          && negb (startsWith part (str "**")) then
    italicRun (slice part 1 1)
  else if startsWith part (str "`") && endsWith part (str "`") then
    codeRun (slice part 1 1)
  else
    plainRun part.

Definition lineRuns (line : jsstring) : list TextRun :=
  map partToRun (filter (fun part => negb (isEmpty part)) (splitInline line)).

(** The loop over [lines]; [n] is [lines.length]. *)
Fixpoint linesLoop (n lineIndex : nat) (lines : list jsstring)
    (allRuns : list TextRun) : list TextRun :=
  match lines with
  | [] => allRuns
  | line :: rest =>
      let allRuns1 := allRuns ++ lineRuns line in
      let allRuns2 :=
        if lineIndex <? n - 1 then allRuns1 ++ [breakRun] else allRuns1 in
      linesLoop n (S lineIndex) rest allRuns2
  end.

Definition processFormattedText (t : jsstring) : list TextRun :=
  let lines := splitLines t [] in
  linesLoop (length lines) 0 lines [].

(* ================================================================== *)
(** ** Paragraph options *)
(* ================================================================== *)

Inductive HeadingLevel :=
  HEADING_1 | HEADING_2 | HEADING_3 | HEADING_4 | HEADING_5 | HEADING_6.

(** [headingLevelMap[depth]]; a key outside 1..6 reads [undefined]. *)
Definition headingLevelMap (depth : nat) : option HeadingLevel :=
  match depth with
  | 1 => Some HEADING_1
  | 2 => Some HEADING_2
  | 3 => Some HEADING_3
  | 4 => Some HEADING_4
  | 5 => Some HEADING_5
  | 6 => Some HEADING_6
  | _ => None
  end.

Record Spacing := mkSpacing {
  before : nat;
  after : nat;
  line : option nat;
  lineRule : option string
}.

Record Indent := mkIndent {
  indentLeft : nat;
  hanging : option nat
}.

Inductive BorderStyle := SINGLE.

Record BorderSide := mkBorderSide {
  color : string;
  space : nat;
  style : BorderStyle;
  borderSize : nat
}.

Record Border := mkBorder {
  borderLeft : option BorderSide;
  borderBottom : option BorderSide
}.

Record Shading := mkShading {
  shadingType : option string;
  fill : string
}.

Record NumberingRef := mkNumberingRef {
  reference : string;
  level : nat
}.

(** A table cell holds one paragraph, made of runs and a spacing. *)
Record TableCell := mkTableCell {
  cellRuns : list TextRun;
  cellSpacing : Spacing;
  cellShading : option Shading
}.

Record Table := mkTable {
  rows : list (list TableCell);
  widthSize : nat;
  widthType : string
}.

Inductive ParagraphChild :=
| ChildRun (r : TextRun)
| ChildTable (t : Table).

(** Options of [new Paragraph({...})]; an absent option is [None], an
    absent [children] is the empty list. *)
Record Paragraph := mkParagraph {
  paraText : option jsstring;
  heading : option HeadingLevel;
  paraChildren : list ParagraphChild;
  spacing : option Spacing;
  indent : option Indent;
  border : option Border;
  shading : option Shading;
  numbering : option NumberingRef;
  bullet : option nat
}.

Definition greyBorder (sp sz : nat) : BorderSide :=
  mkBorderSide "AAAAAA" sp SINGLE sz.

Definition textSpacing (b a : nat) : Spacing :=
  mkSpacing b a (Some 300) (Some "auto").

(** The paragraph pushed for a run of blank tokens (the spec's Spacer). *)
Definition blankSpacer : Paragraph :=
  mkParagraph None None [] (Some (mkSpacing 80 80 None None))
    None None None None None.

(** The custom paragraph break pushed around sections (the spec's
    inter-section Spacer). *)
Definition sectionBreak : Paragraph :=
  mkParagraph None None [ChildRun (plainRun [])]
    (Some (mkSpacing 120 120 None None)) None None None None None.

Definition headingParagraph (depth : nat) (t : jsstring) : Paragraph :=
  mkParagraph (Some t) (headingLevelMap depth) []
    (Some (mkSpacing 200 100 None None)) None None None None None.

Definition textParagraph (runs : list TextRun) : Paragraph :=
  mkParagraph None None (map ChildRun runs) (Some (textSpacing 60 60))
    None None None None None.

Definition listItemParagraph (ordered : bool) (numberingRef : option string)
    (isFirstItem : bool) (runs : list TextRun) : Paragraph :=
  mkParagraph None None (map ChildRun runs)
    (Some (textSpacing (if isFirstItem then 80 else 40) 40))
    (Some (mkIndent 720 (Some 360))) None None
    (if ordered
     then option_map (fun r => mkNumberingRef r 0) numberingRef
     else None)
    (if ordered then None else Some 0).

Definition quoteParagraph (runs : list TextRun) : Paragraph :=
  mkParagraph None None (map ChildRun runs) (Some (textSpacing 60 60))
    (Some (mkIndent 720 None))
    (Some (mkBorder (Some (greyBorder 15 15)) None)) None None None.

Definition codeParagraph (runs : list TextRun) : Paragraph :=
  mkParagraph None None (map ChildRun runs) (Some (textSpacing 80 80))
    None None (Some (mkShading (Some "clear") "F5F5F5")) None None.

Definition ruleParagraph : Paragraph :=
  mkParagraph None None [] (Some (mkSpacing 120 120 None None)) None
    (Some (mkBorder None (Some (greyBorder 1 1)))) None None None.

Definition tableParagraph (t : Table) : Paragraph :=
  mkParagraph None None [ChildTable t] None None None None None None.

(* ================================================================== *)
(** ** Tokens of the external tokenizer *)
(* ================================================================== *)

Record ListItem := mkListItem { itemText : jsstring }.
Record Cell := mkCell { cellText : jsstring }.

(** The tokens the converter reads, with the fields it reads.  [TOther]
    stands for a token whose [type] is none of the eight handled strings. *)
#[warnings="-register-all"]
Inductive Token :=
| TSpace
| TCode (t : jsstring)
| THeading (depth : nat) (t : jsstring)
| TTable (header : list Cell) (body : list (list Cell))
| THr
| TBlockquote (tokens : list Token)
| TList (ordered : bool) (items : list ListItem)
| TParagraph (t : jsstring)
| TOther (type : string).

(** [token.type] *)
Definition tokenType (token : Token) : string :=
  match token with
  | TSpace => "space"
  | TCode _ => "code"
  | THeading _ _ => "heading"
  | TTable _ _ => "table"
  | THr => "hr"
  | TBlockquote _ => "blockquote"
  | TList _ _ => "list"
  | TParagraph _ => "paragraph"
  | TOther type => type
  end.

Definition handledTypes : list string :=
  ["heading"; "paragraph"; "list"; "blockquote"; "code"; "hr"; "table";
   "space"].

(** A kind the [switch] has no [case] for. *)
Definition unrecognized (type : string) : Prop := ~ In type handledTypes.

(* ================================================================== *)
(** ** The block translator: the loop over one section's tokens *)
(* ================================================================== *)

(** The loop variables of one section, and the lines handed to
    [logger.info] by the [default] case. *)
Record SectionState := mkSectionState {
  children : list Paragraph;
  lastTokenType : option string;
  consecutiveBreaks : nat;
  listCounter : nat;
  logged : list string
}.

Definition initSection (log : list string) : SectionState :=
  mkSectionState [] None 0 0 log.

Definition push (p : Paragraph) (st : SectionState) : SectionState :=
  mkSectionState (children st ++ [p]) (lastTokenType st)
    (consecutiveBreaks st) (listCounter st) (logged st).

Definition setBreaks (n : nat) (st : SectionState) : SectionState :=
  mkSectionState (children st) (lastTokenType st) n (listCounter st)
    (logged st).

Definition setChildren (c : list Paragraph) (st : SectionState)
  : SectionState :=
  mkSectionState c (lastTokenType st) (consecutiveBreaks st)
    (listCounter st) (logged st).

Definition setListCounter (n : nat) (st : SectionState) : SectionState :=
  mkSectionState (children st) (lastTokenType st) (consecutiveBreaks st) n
    (logged st).

Definition setLast (type : string) (st : SectionState) : SectionState :=
  mkSectionState (children st) (Some type) (consecutiveBreaks st)
    (listCounter st) (logged st).

Definition logInfo (msg : string) (st : SectionState) : SectionState :=
  mkSectionState (children st) (lastTokenType st) (consecutiveBreaks st)
    (listCounter st) (logged st ++ [msg]).

(** Truthiness of [lastTokenType]: [null] and the empty string are falsy. *)
Definition truthy (last : option string) : bool :=
  match last with
  | Some type => negb (String.eqb type "")
  | None => false
  end.

Definition sameType (last : option string) (type : string) : bool :=
  match last with
  | Some l => String.eqb l type
  | None => false
  end.

(** The [if] that opens the loop body. *)
Definition transition (st : SectionState) (token : Token) : SectionState :=
  if truthy (lastTokenType st)
     && negb (sameType (lastTokenType st) (tokenType token))
  then
    if String.eqb (tokenType token) "space" then
      let st1 := setBreaks (S (consecutiveBreaks st)) st in
      if consecutiveBreaks st1 <=? 1 then push blankSpacer st1 else st1
    else setBreaks 0 st
  else st.

(** The loop over [listToken.items]. *)
Fixpoint listItemsLoop (ordered : bool) (numberingRef : option string)
    (items : list ListItem) (isFirstItem : bool) (acc : list Paragraph)
  : list Paragraph :=
  match items with
  | [] => acc
  | item :: rest =>
      let runs := processFormattedText (itemText item) in
      listItemsLoop ordered numberingRef rest false
        (acc ++ [listItemParagraph ordered numberingRef isFirstItem runs])
  end.

(** The loop over [blockquoteToken.tokens]. *)
Fixpoint quoteLoop (tokens : list Token) (acc : list Paragraph)
  : list Paragraph :=
  match tokens with
  | [] => acc
  | quoteToken :: rest =>
      match quoteToken with
      | TParagraph t =>
          quoteLoop rest (acc ++ [quoteParagraph (processFormattedText t)])
      | _ => quoteLoop rest acc
      end
  end.

(** [new TextRun({ ...run, font: 'Courier New', size: 20 })].  [run] is a
    [TextRun] instance, not an options object: the spread copies the
    instance's own properties, none of which is an option, so the new run
    has the font and the size given here and neither the text nor the
    style of [run]. *)
Definition asCode (run : TextRun) : TextRun :=
  mkTextRun [] false false "Courier New" 20 None.

Definition headerCell (cell : Cell) : TableCell :=
  mkTableCell (processFormattedText (cellText cell))
    (mkSpacing 40 40 None None) (Some (mkShading None "EEEEEE")).

Definition bodyCell (cell : Cell) : TableCell :=
  mkTableCell (processFormattedText (cellText cell))
    (mkSpacing 40 40 None None) None.

Definition tableOf (header : list Cell) (body : list (list Cell)) : Table :=
  mkTable (map headerCell header :: map (map bodyCell) body) 100 "pct".

(** The [switch] on [token.type]. *)
Definition dispatch (st : SectionState) (token : Token) : SectionState :=
  match token with
  | THeading depth t =>
      push (headingParagraph depth t) (setBreaks 0 st)
  | TParagraph t =>
      push (textParagraph (processFormattedText t)) (setBreaks 0 st)
  | TList ordered items =>
      let st0 := setBreaks 0 st in
      let numberingRef :=
        if ordered
        then Some ("list-" ++ numberToString (listCounter st0))%string
        else None in
      let st1 :=
        if ordered then setListCounter (S (listCounter st0)) st0 else st0 in
      setChildren
        (listItemsLoop ordered numberingRef items true (children st1)) st1
  | TBlockquote tokens =>
      let st0 := setBreaks 0 st in
      setChildren (quoteLoop tokens (children st0)) st0
  | TCode t =>
      push (codeParagraph (map asCode (processFormattedText t)))
        (setBreaks 0 st)
  | THr =>
      push ruleParagraph (setBreaks 0 st)
  | TTable header body =>
      push (tableParagraph (tableOf header body)) (setBreaks 0 st)
  | TSpace => st
  | TOther type =>
      setBreaks 0 (logInfo ("Unhandled token type: " ++ type)%string st)
  end.

(** One iteration of [for (const token of tokens)]. *)
Definition step (st : SectionState) (token : Token) : SectionState :=
  setLast (tokenType token) (dispatch (transition st token) token).

Definition run (st : SectionState) (tokens : list Token) : SectionState :=
  fold_left step tokens st.

(** The blocks of one section. *)
Definition translateSection (tokens : list Token) : list Paragraph :=
  children (run (initSection []) tokens).

(* ================================================================== *)
(** ** convertMarkdownToDocx *)
(* ================================================================== *)

Inductive AlignmentType := LEFT.

Record NumberingLevel := mkNumberingLevel {
  levelIndex : nat;
  format : string;
  levelText : string;
  alignment : AlignmentType;
  levelIndent : Indent
}.

Record NumberingConfig := mkNumberingConfig {
  configReference : string;
  levels : list NumberingLevel
}.

Definition numberingConfig (i : nat) : NumberingConfig :=
  mkNumberingConfig ("list-" ++ numberToString i)%string
    [mkNumberingLevel 0 "decimal" "%1." LEFT (mkIndent 720 (Some 360))].

(** [for (let i = 0; i < 100; i++) numberingConfigs.push(...)]; [todo]
    counts the iterations left. *)
Fixpoint numberingLoop (todo i : nat) (configs : list NumberingConfig)
  : list NumberingConfig :=
  match todo with
  | 0 => configs
  | S todo' => numberingLoop todo' (S i) (configs ++ [numberingConfig i])
  end.

Definition numberingConfigs : list NumberingConfig :=
  numberingLoop 100 0 [].

(** What [new Document] receives that depends on the input, and the
    diagnostics logged on the way.  The style tables are constants. *)
Record Document := mkDocument {
  docNumbering : list NumberingConfig;
  docChildren : list Paragraph;
  diagnostics : list string
}.

Section Converter.

(** [marked.lexer] *)
Variable lexer : jsstring -> list Token.

(** The loop over [sections]; [n] is [sections.length], [allChildren]
    and [log] are what has been pushed and logged so far. *)
Fixpoint sectionsLoop (n sectionIndex : nat) (sections : list jsstring)
    (allChildren : list Paragraph) (log : list string)
  : list Paragraph * list string :=
  match sections with
  | [] => (allChildren, log)
  | section :: rest =>
      if isEmpty (trim section) then
        sectionsLoop n (S sectionIndex) rest
          (if 0 <? sectionIndex
           then allChildren ++ [sectionBreak] else allChildren)
          log
      else
        let tokens := lexer (trim section) in
        let st := run (initSection log) tokens in
        let all1 := allChildren ++ children st in
        let all2 :=
          if sectionIndex <? n - 1
          then all1 ++ [sectionBreak] else all1 in
        sectionsLoop n (S sectionIndex) rest all2 (logged st)
  end.

Definition convertMarkdownToDocx (markdownContent : jsstring) : Document :=
  let sections := splitBreaks markdownContent [] in
  let (allChildren, log) :=
    sectionsLoop (length sections) 0 sections [] [] in
  mkDocument numberingConfigs allChildren log.

End Converter.

(* ================================================================== *)
(** ** Vocabulary of the properties *)
(* ================================================================== *)

(** A code unit that may stand inside a span delimited by [q]: neither
    [q] itself nor a line terminator. *)
Definition insideSpan (q c : ascii) : bool :=
  negb (Ascii.eqb c q) && negb (isLineTerminator c).

Definition freeOf (q : ascii) (s : jsstring) : bool :=
  forallb (insideSpan q) s.

(** The content of a well-formed span delimited by [q]: not empty, and
    free of [q] and of line terminators. *)
Definition spanContent (q : ascii) (s : jsstring) : bool :=
  negb (isEmpty s) && freeOf q s.

(** The style flags of a run: bold, italic, monospace. *)
Definition flags (r : TextRun) : bool * bool * bool :=
  (bold r, italics r, isMonospace r).

(** The [before] spacing of a paragraph. *)
Definition leadingSpace (p : Paragraph) : nat :=
  match spacing p with
  | Some s => before s
  | None => 0
  end.

(** The texts of the paragraph tokens of a token list, in order. *)
Fixpoint paragraphTexts (tokens : list Token) : list jsstring :=
  match tokens with
  | [] => []
  | TParagraph t :: rest => t :: paragraphTexts rest
  | _ :: rest => paragraphTexts rest
  end.

(** Two loop states that differ at most in what was logged. *)
Definition sameBlocks (a b : SectionState) : Prop :=
  children a = children b /\ lastTokenType a = lastTokenType b
  /\ consecutiveBreaks a = consecutiveBreaks b
  /\ listCounter a = listCounter b.

(** Every numbering reference among [ps] is ["list-j"] for some [j < n]. *)
Definition refsBelow (n : nat) (ps : list Paragraph) : Prop :=
  forall p nr, In p ps -> numbering p = Some nr ->
    exists j, j < n /\ reference nr = ("list-" ++ numberToString j)%string.

Definition itemParagraph (ordered : bool) (numberingRef : option string)
    (isFirstItem : bool) (item : ListItem) : Paragraph :=
  listItemParagraph ordered numberingRef isFirstItem
    (processFormattedText (itemText item)).

(** The next token to read, if any, is a blank token. *)
Definition startsBlank (tokens : list Token) : bool :=
  match tokens with
  | t :: _ => String.eqb (tokenType t) "space"
  | [] => false
  end.

(** [section.trim() === ''] *)
Definition blank (section : jsstring) : bool := isEmpty (trim section).

(** The number of places of [s] where the break marker stands. *)
Fixpoint countBreaks (s : jsstring) : nat :=
  match s with
  | [] => 0
  | c :: s' =>
      match s' with
      | d :: _ =>
          if Ascii.eqb c "\" && Ascii.eqb d "p" then 1 else 0
      | [] => 0
      end + countBreaks s'
  end.

Definition Paragraph_eq_dec (a b : Paragraph) : {a = b} + {a <> b}.
Proof. repeat decide equality. Defined.

(** The number of inter-section Spacers among [ps]. *)
Definition sectionBreaks (ps : list Paragraph) : nat :=
  count_occ Paragraph_eq_dec ps sectionBreak.

(** What the loop over the sections pushes between them: per section,
    one break when it is blank and not the first, or when it is not blank
    and not the last. *)
Fixpoint breaksPushed (n sectionIndex : nat) (sections : list jsstring)
  : nat :=
  match sections with
  | [] => 0
  | section :: rest =>
      (if blank section
       then if 0 <? sectionIndex then 1 else 0
       else if sectionIndex <? n - 1 then 1 else 0)
      + breaksPushed n (S sectionIndex) rest
  end.

Definition b2n (b : bool) : nat := if b then 1 else 0.

(** ** Stand-in tokenizers for the examples

    [marked.lexer] is not part of the model.  The examples below run the
    converter with one of two tokenizers: the first reads every section as
    one paragraph, the second reads a section ["1. x"] as an ordered list
    of the single item ["x"]. *)

Definition paragraphLexer (section : jsstring) : list Token :=
  [TParagraph section].

Definition orderedListLexer (section : jsstring) : list Token :=
  [TList true [mkListItem (skipn 3 section)]].

(* ================================================================== *)
(** ** Vocabulary of the further properties *)
(* ================================================================== *)

(** One of the two characters that open a span of the pattern. *)
Definition isDelimiter (c : ascii) : bool :=
  Ascii.eqb c "*" || Ascii.eqb c "`".

Definition noDelimiter (s : jsstring) : bool :=
  forallb (fun c => negb (isDelimiter c)) s.

(** The runs of the lines of a block, a break run between two lines. *)
Fixpoint joinLines (lines : list jsstring) : list TextRun :=
  match lines with
  | [] => []
  | line :: rest =>
      match rest with
      | [] => lineRuns line
      | _ :: _ => lineRuns line ++ breakRun :: joinLines rest
      end
  end.

(** A run that carries a hard line break. *)
Definition isBreakRun (r : TextRun) : bool :=
  match break r with Some _ => true | None => false end.

(** The number of newline code units of a text. *)
Definition countLF (s : jsstring) : nat := count_occ ascii_dec s LF.

Definition isOrderedList (token : Token) : bool :=
  match token with
  | TList true _ => true
  | _ => false
  end.

(** The number of ordered list tokens among [tokens]. *)
Definition orderedLists (tokens : list Token) : nat :=
  length (filter isOrderedList tokens).

(** [`list-${n}`] *)
Definition listRef (n : nat) : string := "list-" ++ numberToString n.

(** The kinds of the unrecognized tokens of a token list, in order; the
    tokens nested in a blockquote are not looked at. *)
Fixpoint otherTypes (tokens : list Token) : list string :=
  match tokens with
  | [] => []
  | TOther type :: rest => type :: otherTypes rest
  | _ :: rest => otherTypes rest
  end.

Definition unhandledLine (type : string) : string :=
  "Unhandled token type: " ++ type.

(** The sections put back together, the break marker between two of
    them. *)
Fixpoint joinBreaks (sections : list jsstring) : jsstring :=
  match sections with
  | [] => []
  | section :: rest =>
      match rest with
      | [] => section
      | _ :: _ => section ++ CUSTOM_PARAGRAPH_BREAK ++ joinBreaks rest
      end
  end.

(** What the loop over the tokens keeps true of the blank-run counter. *)
Definition breaksInvariant (st : SectionState) : Prop :=
  consecutiveBreaks st <= 1
  /\ (lastTokenType st <> Some "space" -> consecutiveBreaks st = 0).

(** What the document holds for [sections], the first of which has index
    [sectionIndex], when the document has [n] sections.  Section after
    section: nothing for a blank first section, one inter-section Spacer
    for any other blank section, and for a non-blank section its own
    blocks followed, unless it is the last section, by one inter-section
    Spacer. *)
Fixpoint sectionsBlocks (lexer : jsstring -> list Token)
    (n sectionIndex : nat) (sections : list jsstring) : list Paragraph :=
  match sections with
  | [] => []
  | section :: rest =>
      (if blank section
       then if 0 <? sectionIndex then [sectionBreak] else []
       else translateSection (lexer (trim section))
            ++ if sectionIndex <? n - 1 then [sectionBreak] else [])
      ++ sectionsBlocks lexer n (S sectionIndex) rest
  end.

(** The lines logged for the tokens of the non-blank [sections]. *)
Definition sectionsLog (lexer : jsstring -> list Token)
    (sections : list jsstring) : list string :=
  flat_map (fun section =>
              if blank section then []
              else map unhandledLine (otherTypes (lexer (trim section))))
    sections.

(** The number of blocks the [case] of a token pushes. *)
Definition blockCount (token : Token) : nat :=
  match token with
  | TSpace => 0
  | TCode _ => 1
  | THeading _ _ => 1
  | TTable _ _ => 1
  | THr => 1
  | TBlockquote tokens => length (paragraphTexts tokens)
  | TList _ items => length items
  | TParagraph _ => 1
  | TOther _ => 0
  end.

Definition isSpacer (p : Paragraph) : bool :=
  if Paragraph_eq_dec p blankSpacer then true else false.

(** The blocks that are not Spacers. *)
Definition contentBlocks (ps : list Paragraph) : list Paragraph :=
  filter (fun p => negb (isSpacer p)) ps.

(* ================================================================== *)
(** * Properties *)
(* ================================================================== *)

(** ** The model on the specification's examples *)

Example splitInline_three_spans :
  splitInline (str "**b***i*`c`")
  = [[]; str "**b**"; []; str "*i*"; []; str "`c`"; []].
Proof. reflexivity. Qed.

Example processFormattedText_bold_word :
  processFormattedText (str "Hello **world**")
  = [plainRun (str "Hello "); boldRun (str "world")].
Proof. reflexivity. Qed.

Example processFormattedText_two_lines :
  processFormattedText (str "one" ++ [LF] ++ str "two")
  = [plainRun (str "one"); breakRun; plainRun (str "two")].
Proof. reflexivity. Qed.

Example splitBreaks_marker :
  splitBreaks (str "a" ++ CUSTOM_PARAGRAPH_BREAK ++ str "b") []
  = [str "a"; str "b"].
Proof. reflexivity. Qed.

Example convert_title_and_paragraph :
  forall lexer : jsstring -> list Token,
    lexer (str "# Title") = [THeading 1 (str "Title")] ->
    lexer (str "Hello **world**") = [TParagraph (str "Hello **world**")] ->
    docChildren
      (convertMarkdownToDocx lexer
         (str "# Title\p" ++ [LF] ++ str "Hello **world**"))
    = [headingParagraph 1 (str "Title");
       sectionBreak;
       textParagraph [plainRun (str "Hello "); boldRun (str "world")]].
Proof.
  intros lexer Ht Hp. unfold convertMarkdownToDocx.
  change (splitBreaks (str "# Title\p" ++ [LF] ++ str "Hello **world**") [])
    with [str "# Title"; LF :: str "Hello **world**"].
  cbn [length sectionsLoop].
  change (trim (str "# Title")) with (str "# Title").
  change (trim (LF :: str "Hello **world**")) with (str "Hello **world**").
  rewrite Ht, Hp. reflexivity.
Qed.

(** Case analysis on every [if] of the goal. *)
Ltac split_ifs :=
  repeat match goal with
         | |- context [if ?c then _ else _] => destruct c
         end.

(* ================================================================== *)
(** ** Facts about the string built-ins *)
(* ================================================================== *)

Section StringFacts.

Lemma stripPrefix_app (p s : jsstring) : stripPrefix p (p ++ s) = Some s.
Proof.
  induction p as [|a p IH]; simpl; [reflexivity|].
  now rewrite Ascii.eqb_refl.
Qed.

Lemma stripPrefix_head_neq (a b : ascii) (p s : jsstring) :
  a <> b -> stripPrefix (a :: p) (b :: s) = None.
Proof.
  intros H. simpl. apply Ascii.eqb_neq in H. now rewrite H.
Qed.

Lemma splitLines_no_LF (s cur : jsstring) :
  ~ In LF s -> splitLines s cur = [cur ++ s].
Proof.
  revert cur. induction s as [|c s IH]; intros cur H; simpl.
  - now rewrite app_nil_r.
  - destruct (Ascii.eqb_spec c LF) as [->|_].
    + exfalso. apply H. now left.
    + rewrite IH by (intros Hin; apply H; now right).
      now rewrite <- app_assoc.
Qed.

Lemma splitBreaks_no_backslash (s cur : jsstring) :
  ~ In "\"%char s -> splitBreaks s cur = [cur ++ s].
Proof.
  revert cur. induction s as [|c s IH]; intros cur H.
  - simpl. now rewrite app_nil_r.
  - assert (Hc : Ascii.eqb c "\" = false).
    { apply Ascii.eqb_neq. intros ->. apply H. now left. }
    assert (Hs : ~ In "\"%char s) by (intros Hin; apply H; now right).
    destruct s as [|d s']; [reflexivity|].
    change (splitBreaks (c :: d :: s') cur)
      with (if Ascii.eqb c "\" && Ascii.eqb d "p"
            then cur :: splitBreaks s' []
            else splitBreaks (d :: s') (cur ++ [c])).
    rewrite Hc. simpl andb. cbv iota.
    rewrite IH by exact Hs. now rewrite <- app_assoc.
Qed.

Lemma trimStart_blank (s : jsstring) :
  forallb isWhiteSpace s = true -> trimStart s = [].
Proof.
  induction s as [|c s IH]; simpl; [reflexivity|].
  intros H. apply andb_prop in H as [Hc Hs]. rewrite Hc. now apply IH.
Qed.

Lemma trim_blank (s : jsstring) :
  forallb isWhiteSpace s = true -> trim s = [].
Proof.
  intros H. unfold trim, trimEnd. rewrite (trimStart_blank s H). reflexivity.
Qed.

End StringFacts.

(* ================================================================== *)
(** ** The inline formatter *)
(* ================================================================== *)

Section InlineFormatter.

Lemma partToRun_flagCount (part : jsstring) :
  flagCount (partToRun part) <= 1.
Proof.
  unfold partToRun.
  destruct (startsWith part (str "**") && endsWith part (str "**"));
    [cbn; lia|].
  destruct (startsWith part (str "*") && endsWith part (str "*")
            && negb (startsWith part (str "**"))); [cbn; lia|].
  destruct (startsWith part (str "`") && endsWith part (str "`"));
    cbn; lia.
Qed.

(** What holds of every run a line yields and of the break run holds of
    every run of the result. *)
Lemma linesLoop_Forall (P : TextRun -> Prop) :
  (forall part, P (partToRun part)) -> P breakRun ->
  forall lines n lineIndex allRuns,
    Forall P allRuns -> Forall P (linesLoop n lineIndex lines allRuns).
Proof.
  intros Hpart Hbreak.
  induction lines as [|line rest IH]; intros n lineIndex allRuns Hall;
    simpl; [exact Hall|].
  apply IH.
  assert (H1 : Forall P (allRuns ++ lineRuns line)).
  { apply Forall_app. split; [exact Hall|].
    unfold lineRuns. apply Forall_forall. intros r Hr.
    apply in_map_iff in Hr as (part & <- & _). apply Hpart. }
  destruct (lineIndex <? n - 1); [|exact H1].
  apply Forall_app. split; [exact H1|]. now constructor.
Qed.

Lemma processFormattedText_one_line (t : jsstring) :
  ~ In LF t -> processFormattedText t = lineRuns t.
Proof.
  intros H. unfold processFormattedText.
  rewrite splitLines_no_LF by exact H. reflexivity.
Qed.

End InlineFormatter.

(** C10. Every run the inline formatter emits carries at most one of the
    three style flags bold, italic and monospace, whatever the input
    text. *)
Theorem C10_run_has_at_most_one_flag :
  forall t : jsstring,
    Forall (fun r => flagCount r <= 1) (processFormattedText t).
Proof.
  intros t. unfold processFormattedText.
  apply linesLoop_Forall.
  - apply partToRun_flagCount.
  - cbn. lia.
  - constructor.
Qed.

(* ================================================================== *)
(** ** The pattern on well-formed spans *)
(* ================================================================== *)

Section Spans.

Lemma insideSpan_inv (q c : ascii) :
  insideSpan q c = true -> c <> q /\ isLineTerminator c = false.
Proof.
  unfold insideSpan. intros H. apply andb_prop in H as [Hq Ht].
  apply negb_true_iff in Hq, Ht. apply Ascii.eqb_neq in Hq. auto.
Qed.

Lemma freeOf_cons (q c : ascii) (s : jsstring) :
  freeOf q (c :: s) = true -> insideSpan q c = true /\ freeOf q s = true.
Proof. intros H. now apply andb_prop in H. Qed.

Lemma freeOf_no_LF (q : ascii) (s : jsstring) :
  freeOf q s = true -> ~ In LF s.
Proof.
  induction s as [|c s IH]; intros H; [easy|].
  apply freeOf_cons in H as [Hc Hs].
  apply insideSpan_inv in Hc as (_ & Ht).
  intros [->|Hin]; [discriminate Ht|]. now apply IH.
Qed.

Lemma spanContent_inv (q : ascii) (s : jsstring) :
  spanContent q s = true -> s <> [] /\ freeOf q s = true.
Proof.
  unfold spanContent. intros H. apply andb_prop in H as [Hne Hf].
  split; [|exact Hf]. now destruct s.
Qed.

(** The lazy quantifier runs over the content of a span up to its closing
    delimiter. *)
Lemma lazyUntil_content (q : ascii) (close' b rest : jsstring) :
  freeOf q b = true ->
  lazyUntil (q :: close') (b ++ (q :: close') ++ rest)
  = Some (b ++ q :: close', rest).
Proof.
  induction b as [|c b IH]; intros Hb.
  - change ([] ++ (q :: close') ++ rest) with (q :: close' ++ rest).
    unfold lazyUntil; fold lazyUntil.
    change (q :: close' ++ rest) with ((q :: close') ++ rest).
    now rewrite stripPrefix_app.
  - apply freeOf_cons in Hb as [Hc Hb].
    apply insideSpan_inv in Hc as (Hq & Ht).
    change ((c :: b) ++ (q :: close') ++ rest)
      with (c :: (b ++ (q :: close') ++ rest)).
    unfold lazyUntil; fold lazyUntil.
    rewrite stripPrefix_head_neq by congruence.
    rewrite Ht, IH by exact Hb. reflexivity.
Qed.

Lemma matchInline_bold (b rest : jsstring) :
  freeOf "*" b = true ->
  matchInline (str "**" ++ b ++ str "**" ++ rest)
  = Some (str "**" ++ b ++ str "**", rest).
Proof.
  intros Hb. unfold matchInline, matchSpan.
  rewrite stripPrefix_app.
  change (str "**") with ["*"; "*"]%char.
  rewrite lazyUntil_content by exact Hb. reflexivity.
Qed.

Lemma matchInline_italic (c : ascii) (i rest : jsstring) :
  freeOf "*" (c :: i) = true ->
  matchInline (str "*" ++ (c :: i) ++ str "*" ++ rest)
  = Some (str "*" ++ (c :: i) ++ str "*", rest).
Proof.
  intros Hi. unfold matchInline.
  assert (H1 : matchSpan (str "**") (str "**")
                 (str "*" ++ (c :: i) ++ str "*" ++ rest) = None).
  { unfold matchSpan. apply freeOf_cons in Hi as [Hc _].
    apply insideSpan_inv in Hc as (Hs & _).
    change (stripPrefix (str "**") (str "*" ++ (c :: i) ++ str "*" ++ rest))
      with (stripPrefix ["*"%char] (c :: i ++ str "*" ++ rest)).
    rewrite stripPrefix_head_neq by congruence. reflexivity. }
  rewrite H1. unfold orElse at 1. unfold matchSpan.
  rewrite stripPrefix_app.
  change (str "*") with ["*"%char].
  rewrite lazyUntil_content by exact Hi. reflexivity.
Qed.

Lemma matchInline_code (c rest : jsstring) :
  freeOf "`" c = true ->
  matchInline (str "`" ++ c ++ str "`" ++ rest)
  = Some (str "`" ++ c ++ str "`", rest).
Proof.
  intros Hc. unfold matchInline.
  change (matchSpan (str "**") (str "**") (str "`" ++ c ++ str "`" ++ rest))
    with (@None (jsstring * jsstring)).
  change (matchSpan (str "*") (str "*") (str "`" ++ c ++ str "`" ++ rest))
    with (@None (jsstring * jsstring)).
  unfold orElse. unfold matchSpan.
  rewrite stripPrefix_app.
  change (str "`") with ["`"%char].
  rewrite lazyUntil_content by exact Hc. reflexivity.
Qed.

(** *** The search never runs out of positions *)

Lemma stripPrefix_length (p s r : jsstring) :
  stripPrefix p s = Some r -> length s = length p + length r.
Proof.
  revert s. induction p as [|a p IH]; intros s H.
  - simpl in H. now inversion H.
  - destruct s as [|b s]; [discriminate|]. simpl in H.
    destruct (Ascii.eqb a b); [|discriminate].
    simpl. f_equal. now apply IH.
Qed.

Lemma lazyUntil_length (close s m rest : jsstring) :
  lazyUntil close s = Some (m, rest) -> length rest <= length s.
Proof.
  revert m. induction s as [|c s IH]; intros m H.
  - unfold lazyUntil in H.
    destruct (stripPrefix close []) as [r|] eqn:E; [|discriminate].
    inversion H; subst. apply stripPrefix_length in E. lia.
  - unfold lazyUntil in H; fold lazyUntil in H.
    destruct (stripPrefix close (c :: s)) as [r|] eqn:E.
    + inversion H; subst. apply stripPrefix_length in E. lia.
    + destruct (isLineTerminator c); [discriminate|].
      destruct (lazyUntil close s) as [[m' r']|] eqn:El; [|discriminate].
      inversion H; subst. specialize (IH _ eq_refl). simpl. lia.
Qed.

Lemma matchSpan_length (open close s m rest : jsstring) :
  open <> [] ->
  matchSpan open close s = Some (m, rest) -> length rest < length s.
Proof.
  intros Ho H. unfold matchSpan in H.
  destruct (stripPrefix open s) as [s1|] eqn:E; [|discriminate].
  destruct (lazyUntil close s1) as [[m' r']|] eqn:El; [|discriminate].
  inversion H; subst.
  apply stripPrefix_length in E. apply lazyUntil_length in El.
  destruct open; [congruence|]. simpl in E. lia.
Qed.

Lemma matchInline_length (s m rest : jsstring) :
  matchInline s = Some (m, rest) -> length rest < length s.
Proof.
  unfold matchInline, orElse. intros H.
  destruct (matchSpan (str "**") (str "**") s) as [[m1 r1]|] eqn:E1.
  { inversion H; subst. eapply matchSpan_length; [|exact E1]. discriminate. }
  destruct (matchSpan (str "*") (str "*") s) as [[m2 r2]|] eqn:E2.
  { inversion H; subst. eapply matchSpan_length; [|exact E2]. discriminate. }
  eapply matchSpan_length; [|exact H]. discriminate.
Qed.

(** Any fuel that covers the text gives the same pieces: the fuel of
    [splitInline] is never used up. *)
Lemma splitInlineFrom_fuel (f1 : nat) :
  forall f2 s cur,
    length s <= f1 -> length s <= f2 ->
    splitInlineFrom f1 s cur = splitInlineFrom f2 s cur.
Proof.
  induction f1 as [|f1 IH]; intros f2 s cur H1 H2.
  - destruct s; [now destruct f2|simpl in H1; lia].
  - destruct s as [|c s]; [now destruct f2|].
    destruct f2 as [|f2]; [simpl in H2; lia|].
    simpl in H1, H2. simpl.
    destruct (matchInline (c :: s)) as [[m rest]|] eqn:E.
    + apply matchInline_length in E. simpl in E.
      do 2 f_equal. apply IH; lia.
    + apply IH; lia.
Qed.

Lemma splitInline_match (s m rest : jsstring) :
  matchInline s = Some (m, rest) ->
  splitInline s = [] :: m :: splitInline rest.
Proof.
  intros H. unfold splitInline.
  destruct s as [|c s]; [discriminate|].
  simpl length. simpl splitInlineFrom. rewrite H.
  do 2 f_equal. apply matchInline_length in H. simpl in H.
  apply splitInlineFrom_fuel; lia.
Qed.

(** *** Reading a delimited part back *)

Lemma startsWith_app (p s : jsstring) : startsWith (p ++ s) p = true.
Proof. unfold startsWith. now rewrite stripPrefix_app. Qed.

Lemma endsWith_app (s p : jsstring) : endsWith (s ++ p) p = true.
Proof. unfold endsWith. rewrite rev_app_distr. apply startsWith_app. Qed.

Lemma slice_between (p b q : jsstring) :
  slice (p ++ b ++ q) (length p) (length q) = b.
Proof.
  unfold slice. rewrite skipn_app, skipn_all, Nat.sub_diag. simpl.
  rewrite !length_app.
  replace (length p + (length b + length q) - length q - length p)
    with (length b + 0) by lia.
  rewrite firstn_app_2. simpl. apply app_nil_r.
Qed.

Lemma partToRun_bold (b : jsstring) :
  partToRun (str "**" ++ b ++ str "**") = boldRun b.
Proof.
  unfold partToRun. rewrite startsWith_app.
  rewrite (app_assoc (str "**") b (str "**")) at 1.
  rewrite endsWith_app. cbn [andb negb].
  f_equal. exact (slice_between (str "**") b (str "**")).
Qed.

Lemma partToRun_italic (c : ascii) (i : jsstring) :
  freeOf "*" (c :: i) = true ->
  partToRun (str "*" ++ (c :: i) ++ str "*") = italicRun (c :: i).
Proof.
  intros Hi. apply freeOf_cons in Hi as [Hc _].
  apply insideSpan_inv in Hc as (Hs & _).
  assert (H2 : startsWith (str "*" ++ (c :: i) ++ str "*") (str "**")
               = false).
  { unfold startsWith.
    change (stripPrefix (str "**") (str "*" ++ (c :: i) ++ str "*"))
      with (stripPrefix ["*"%char] (c :: i ++ str "*")).
    rewrite stripPrefix_head_neq by congruence. reflexivity. }
  unfold partToRun. rewrite H2. cbn [andb negb].
  rewrite startsWith_app.
  rewrite (app_assoc (str "*") (c :: i) (str "*")) at 1.
  rewrite endsWith_app. cbn [andb negb].
  f_equal. exact (slice_between (str "*") (c :: i) (str "*")).
Qed.

Lemma partToRun_code (c : jsstring) :
  partToRun (str "`" ++ c ++ str "`") = codeRun c.
Proof.
  unfold partToRun.
  change (startsWith (str "`" ++ c ++ str "`") (str "**")) with false.
  change (startsWith (str "`" ++ c ++ str "`") (str "*")) with false.
  cbn [andb negb].
  rewrite startsWith_app.
  rewrite (app_assoc (str "`") c (str "`")) at 1.
  rewrite endsWith_app. cbn [andb negb].
  f_equal. exact (slice_between (str "`") c (str "`")).
Qed.

Lemma lineRuns_three_spans (b i c : jsstring) :
  freeOf "*" b = true -> freeOf "*" i = true -> freeOf "`" c = true ->
  i <> [] ->
  lineRuns (str "**" ++ b ++ str "**" ++ str "*" ++ i ++ str "*"
            ++ str "`" ++ c ++ str "`")
  = [boldRun b; italicRun i; codeRun c].
Proof.
  intros Hb Hi Hc Hne.
  destruct i as [|i0 i]; [congruence|].
  unfold lineRuns.
  rewrite (splitInline_match _ _ _ (matchInline_bold b _ Hb)).
  rewrite (splitInline_match _ _ _ (matchInline_italic i0 i _ Hi)).
  rewrite <- (app_nil_r (str "`")) at 2.
  rewrite (splitInline_match _ _ _ (matchInline_code c [] Hc)).
  change (splitInline []) with [@nil ascii].
  cbn [filter isEmpty negb app str list_ascii_of_string map].
  change ("*" :: "*" :: b ++ ["*"; "*"])%char
    with (str "**" ++ b ++ str "**").
  change ("*" :: i0 :: i ++ ["*"])%char
    with (str "*" ++ (i0 :: i) ++ str "*").
  change ("`" :: c ++ ["`"])%char with (str "`" ++ c ++ str "`").
  rewrite partToRun_bold, (partToRun_italic i0 i Hi), partToRun_code.
  reflexivity.
Qed.

End Spans.

(** C5 (as amended). A paragraph text made of one bold span, one italic
    span and one backtick span, in that order with nothing between them,
    each with a content that is not empty and holds neither a line
    terminator nor the span's own delimiter character, yields exactly
    three runs, flagged bold, italic and monospace in source order, each
    carrying its span's content, none of zero length. *)
Theorem C5_three_spans_three_runs :
  forall b i c : jsstring,
    spanContent "*" b = true -> spanContent "*" i = true ->
    spanContent "`" c = true ->
    let runs :=
      processFormattedText
        (str "**" ++ b ++ str "**" ++ str "*" ++ i ++ str "*"
         ++ str "`" ++ c ++ str "`") in
    runs = [boldRun b; italicRun i; codeRun c]
    /\ map flags runs
       = [(true, false, false); (false, true, false); (false, false, true)]
    /\ Forall (fun r => text r <> []) runs.
Proof.
  intros b i c Hb Hi Hc runs.
  apply spanContent_inv in Hb as [Nb Hb], Hi as [Ni Hi], Hc as [Nc Hc].
  assert (E : runs = [boldRun b; italicRun i; codeRun c]).
  { subst runs. rewrite processFormattedText_one_line.
    - now apply lineRuns_three_spans.
    - apply freeOf_no_LF in Hb, Hi, Hc.
      rewrite !in_app_iff. unfold str, LF. simpl.
      intuition discriminate. }
  rewrite E. split; [reflexivity|]. split; [reflexivity|].
  repeat constructor; assumption.
Qed.

Lemma C5_three_spans_three_runs_witness :
  let runs := processFormattedText (str "**bold***italic*`code`") in
  runs = [boldRun (str "bold"); italicRun (str "italic"); codeRun (str "code")]
  /\ map flags runs
     = [(true, false, false); (false, true, false); (false, false, true)]
  /\ Forall (fun r => text r <> []) runs.
Proof.
  apply (C5_three_spans_three_runs (str "bold") (str "italic") (str "code"));
    reflexivity.
Defined.

(** C5 as the specification words it does not hold: a backtick span with
    empty content is matched as a span, and its run has zero length. *)
Lemma C5_empty_span_counterexample :
  let runs := processFormattedText (str "**b***i*``") in
  runs = [boldRun (str "b"); italicRun (str "i"); codeRun []]
  /\ ~ Forall (fun r => text r <> []) runs.
Proof.
  split; [reflexivity|].
  intros H. cbv in H. inversion H as [|? ? _ H1]; subst.
  inversion H1 as [|? ? _ H2]; subst.
  inversion H2 as [|? ? H3 _]; subst. now apply H3.
Qed.

(* ================================================================== *)
(** ** The block translator *)
(* ================================================================== *)

Section Translator.

Lemma run_app (st : SectionState) (a b : list Token) :
  run st (a ++ b) = run (run st a) b.
Proof. apply fold_left_app. Qed.

Lemma run_cons (st : SectionState) (t : Token) (ts : list Token) :
  run st (t :: ts) = run (step st t) ts.
Proof. reflexivity. Qed.

Lemma String_eqb_neq (a b : string) : a <> b -> String.eqb a b = false.
Proof. apply String.eqb_neq. Qed.

(** *** Blank tokens *)

Lemma step_space_first (st : SectionState) (last : string) :
  lastTokenType st = Some last -> last <> "" -> last <> "space" ->
  consecutiveBreaks st = 0 ->
  step st TSpace
  = mkSectionState (children st ++ [blankSpacer]) (Some "space") 1
      (listCounter st) (logged st).
Proof.
  intros Hl Hne Hns Hb. unfold step, transition. rewrite Hl.
  cbn [truthy sameType tokenType].
  rewrite (String_eqb_neq _ _ Hne), (String_eqb_neq _ _ Hns).
  cbn. rewrite Hb. reflexivity.
Qed.

Lemma step_space_again (st : SectionState) :
  lastTokenType st = Some "space" -> step st TSpace = st.
Proof.
  intros Hl. unfold step, transition. rewrite Hl. cbn.
  destruct st; cbn in *. now rewrite Hl.
Qed.

Lemma step_space_start (st : SectionState) :
  lastTokenType st = None ->
  step st TSpace = setLast "space" st.
Proof. intros Hl. unfold step, transition. now rewrite Hl. Qed.

Lemma run_spaces_again (n : nat) (st : SectionState) :
  lastTokenType st = Some "space" -> run st (repeat TSpace n) = st.
Proof.
  intros Hl. induction n as [|n IH]; [reflexivity|].
  cbn [repeat]. rewrite run_cons, step_space_again; assumption.
Qed.

Lemma step_lastTokenType (st : SectionState) (t : Token) :
  lastTokenType (step st t) = Some (tokenType t).
Proof. reflexivity. Qed.

Lemma listCounter_transition (st : SectionState) (t : Token) :
  listCounter (transition st t) = listCounter st.
Proof.
  unfold transition. now split_ifs.
Qed.

Lemma logged_transition (st : SectionState) (t : Token) :
  logged (transition st t) = logged st.
Proof.
  unfold transition. now split_ifs.
Qed.

(** A token that is not blank pushes nothing before its [case]. *)
Lemma children_transition (st : SectionState) (t : Token) :
  tokenType t <> "space" -> children (transition st t) = children st.
Proof.
  intros H. unfold transition.
  destruct (truthy _ && negb _); [|reflexivity].
  now rewrite (String_eqb_neq _ _ H).
Qed.

Lemma step_not_space_breaks (st : SectionState) (t : Token) :
  tokenType t <> "space" -> consecutiveBreaks (step st t) = 0.
Proof.
  intros H.
  destruct t as [|c|d h|hd bd| |qs|ordered items|p|ty];
    try reflexivity; [now elim H|now destruct ordered].
Qed.

(** *** The loops inside the [list] and [blockquote] cases *)

Lemma listItemsLoop_rest (ordered : bool) (numberingRef : option string)
    (items : list ListItem) (acc : list Paragraph) :
  listItemsLoop ordered numberingRef items false acc
  = acc ++ map (itemParagraph ordered numberingRef false) items.
Proof.
  revert acc. induction items as [|item rest IH]; intros acc; simpl.
  - now rewrite app_nil_r.
  - rewrite IH, <- app_assoc. reflexivity.
Qed.

Lemma listItemsLoop_first (ordered : bool) (numberingRef : option string)
    (item : ListItem) (rest : list ListItem) (acc : list Paragraph) :
  listItemsLoop ordered numberingRef (item :: rest) true acc
  = acc ++ itemParagraph ordered numberingRef true item
        :: map (itemParagraph ordered numberingRef false) rest.
Proof.
  simpl. rewrite listItemsLoop_rest, <- app_assoc. reflexivity.
Qed.

Lemma quoteLoop_paragraphs (tokens : list Token) (acc : list Paragraph) :
  quoteLoop tokens acc
  = acc ++ map (fun t => quoteParagraph (processFormattedText t))
             (paragraphTexts tokens).
Proof.
  revert acc. induction tokens as [|q rest IH]; intros acc; simpl.
  - now rewrite app_nil_r.
  - destruct q; rewrite IH; try reflexivity.
    simpl. rewrite <- app_assoc. reflexivity.
Qed.

(** *** Numbering references inside one section *)

Lemma numberToString_inj (n m : nat) :
  numberToString n = numberToString m -> n = m.
Proof.
  unfold numberToString. intros H.
  assert (E : Some (Nat.to_uint n) = Some (Nat.to_uint m)).
  { rewrite <- !NilEmpty.usu. now rewrite H. }
  inversion E as [E']. apply (f_equal Nat.of_uint) in E'.
  now rewrite !Unsigned.of_to in E'.
Qed.

Lemma listRef_inj (n m : nat) :
  ("list-" ++ numberToString n = "list-" ++ numberToString m)%string ->
  n = m.
Proof. simpl. intros H. inversion H. now apply numberToString_inj. Qed.

Lemma refsBelow_mono (n m : nat) (ps : list Paragraph) :
  n <= m -> refsBelow n ps -> refsBelow m ps.
Proof.
  intros Hle H p nr Hin Hn. destruct (H p nr Hin Hn) as (j & Hj & E).
  exists j. split; [lia|exact E].
Qed.

Lemma refsBelow_app (n : nat) (ps qs : list Paragraph) :
  refsBelow n ps -> refsBelow n qs -> refsBelow n (ps ++ qs).
Proof.
  intros Hp Hq p nr Hin. apply in_app_or in Hin as [Hin|Hin]; eauto.
Qed.

Lemma refsBelow_unnumbered (n : nat) (ps : list Paragraph) :
  Forall (fun p => numbering p = None) ps -> refsBelow n ps.
Proof.
  intros H p nr Hin Hn. rewrite Forall_forall in H.
  rewrite (H p Hin) in Hn. discriminate.
Qed.

Lemma refsBelow_transition (st : SectionState) (t : Token) :
  refsBelow (listCounter st) (children st) ->
  refsBelow (listCounter st) (children (transition st t)).
Proof.
  intros H. unfold transition. split_ifs; try exact H.
  cbn. apply refsBelow_app; [exact H|].
  apply refsBelow_unnumbered. now repeat constructor.
Qed.

Lemma refsBelow_step (st : SectionState) (t : Token) :
  refsBelow (listCounter st) (children st) ->
  refsBelow (listCounter (step st t)) (children (step st t)).
Proof.
  intros H. apply (refsBelow_transition st t) in H.
  rewrite <- (listCounter_transition st t) in H.
  unfold step. generalize dependent (transition st t). clear st.
  intros st H.
  destruct t as [|c|d h|hd bd| |qs|ordered items|p|ty]; cbn;
    try exact H;
    try (apply refsBelow_app; [exact H|];
         apply refsBelow_unnumbered; now repeat constructor).
  - rewrite quoteLoop_paragraphs.
    apply refsBelow_app; [exact H|].
    apply refsBelow_unnumbered, Forall_forall.
    intros q Hq. apply in_map_iff in Hq as (x & <- & _). reflexivity.
  - destruct ordered; cbn.
    + destruct items as [|item rest]; cbn [listItemsLoop].
      * eapply refsBelow_mono; [|exact H]. lia.
      * fold (listItemsLoop true). rewrite listItemsLoop_rest.
        rewrite <- app_assoc.
        apply refsBelow_app;
          [eapply refsBelow_mono; [|exact H]; lia|].
        intros q nr Hq Hn. exists (listCounter st). split; [lia|].
        cbn in Hq. destruct Hq as [<-|Hq].
        -- cbn in Hn. now inversion Hn.
        -- apply in_map_iff in Hq as (x & <- & _).
           cbn in Hn. now inversion Hn.
    + destruct items as [|item rest]; cbn [listItemsLoop]; [exact H|].
      fold (listItemsLoop false). rewrite listItemsLoop_rest.
      rewrite <- app_assoc.
      apply refsBelow_app; [exact H|].
      apply refsBelow_unnumbered, Forall_forall.
      intros q Hq. cbn in Hq. destruct Hq as [<-|Hq]; [reflexivity|].
      apply in_map_iff in Hq as (x & <- & _). reflexivity.
Qed.

Lemma refsBelow_run (tokens : list Token) (st : SectionState) :
  refsBelow (listCounter st) (children st) ->
  refsBelow (listCounter (run st tokens)) (children (run st tokens)).
Proof.
  revert st. induction tokens as [|t ts IH]; intros st H; [exact H|].
  rewrite run_cons. apply IH, refsBelow_step, H.
Qed.

End Translator.

Section TranslatorStates.

Lemma sameBlocks_refl (a : SectionState) : sameBlocks a a.
Proof. now repeat split. Qed.

(** The blocks do not depend on what was logged before. *)
Lemma sameBlocks_step (a b : SectionState) (t : Token) :
  sameBlocks a b -> sameBlocks (step a t) (step b t).
Proof.
  destruct a as [ca la ba na ga], b as [cb lb bb nb gb].
  unfold sameBlocks. cbn. intros (-> & -> & -> & ->).
  unfold step, transition. cbn.
  destruct t as [|c|d h|hd bd| |qs|[] items|p|ty]; cbn;
    split_ifs; cbn; repeat split; reflexivity.
Qed.

Lemma sameBlocks_run (ts : list Token) (a b : SectionState) :
  sameBlocks a b -> sameBlocks (run a ts) (run b ts).
Proof.
  revert a b. induction ts as [|t ts IH]; intros a b H; [exact H|].
  rewrite !run_cons. apply IH, sameBlocks_step, H.
Qed.

(** A token that is not blank reads only the blocks pushed so far and
    the list counter. *)
Lemma step_not_space_sameBlocks (a b : SectionState) (t : Token) :
  tokenType t <> "space" ->
  children a = children b -> listCounter a = listCounter b ->
  sameBlocks (step a t) (step b t).
Proof.
  intros Ht Hc Hn. unfold sameBlocks.
  rewrite !step_lastTokenType, !step_not_space_breaks by exact Ht.
  pose proof (children_transition a t Ht) as Ca.
  pose proof (children_transition b t Ht) as Cb.
  pose proof (listCounter_transition a t) as Na.
  pose proof (listCounter_transition b t) as Nb.
  unfold step.
  destruct (transition a t) as [ca la ba na ga],
           (transition b t) as [cb lb bb nb gb].
  cbn in Ca, Cb, Na, Nb. subst ca cb na nb. rewrite Hc, Hn.
  destruct t as [|c|d h|hd bd| |qs|[] items|p|ty]; cbn;
    repeat split; reflexivity.
Qed.

Lemma unrecognized_not_space (type : string) :
  unrecognized type -> type <> "space".
Proof. intros H ->. apply H. cbv. tauto. Qed.

Lemma run_spaces_after (st : SectionState) (last : string) (n : nat) :
  lastTokenType st = Some last -> last <> "" -> last <> "space" ->
  consecutiveBreaks st = 0 ->
  run st (repeat TSpace (S n)) = step st TSpace.
Proof.
  intros Hl Hne Hns Hb. cbn [repeat]. rewrite run_cons.
  apply run_spaces_again.
  now rewrite (step_space_first st last Hl Hne Hns Hb).
Qed.

End TranslatorStates.

(** C2 (as amended). A run of n >= 1 consecutive blank tokens that follows
    a token of another kind (one whose type is not the empty string) makes
    the translator push exactly one Spacer, whatever n is, and leaves it in
    the state one blank token leaves it in; a run at the very start of the
    section pushes no Spacer. *)
Theorem C2_blank_run_pushes_one_spacer :
  forall (log : list string) (pre post : list Token) (t : Token) (n : nat),
    1 <= n -> tokenType t <> "space" -> tokenType t <> "" ->
    let st := run (initSection log) (pre ++ [t]) in
    children (run st (repeat TSpace n)) = children st ++ [blankSpacer]
    /\ run (initSection log) (pre ++ t :: repeat TSpace n ++ post)
       = run (initSection log) (pre ++ t :: TSpace :: post)
    /\ children (run (initSection log) (repeat TSpace n)) = [].
Proof.
  intros log pre post t n Hn Hns Hne st.
  destruct n as [|n]; [lia|].
  assert (Hl : lastTokenType st = Some (tokenType t)).
  { subst st. rewrite run_app. apply step_lastTokenType. }
  assert (Hb : consecutiveBreaks st = 0).
  { subst st. rewrite run_app. now apply step_not_space_breaks. }
  pose proof (run_spaces_after st (tokenType t) n Hl Hne Hns Hb) as Hrun.
  split; [|split].
  - rewrite Hrun, (step_space_first st _ Hl Hne Hns Hb). reflexivity.
  - replace (pre ++ t :: repeat TSpace (S n) ++ post)
      with ((pre ++ [t]) ++ repeat TSpace (S n) ++ post)
      by (rewrite <- app_assoc; reflexivity).
    replace (pre ++ t :: TSpace :: post)
      with ((pre ++ [t]) ++ TSpace :: post)
      by (rewrite <- app_assoc; reflexivity).
    rewrite (run_app _ (pre ++ [t]) (repeat TSpace (S n) ++ post)).
    rewrite (run_app _ (pre ++ [t]) (TSpace :: post)).
    fold st. rewrite (run_app st), Hrun. reflexivity.
  - cbn [repeat]. rewrite run_cons, step_space_start by reflexivity.
    now rewrite run_spaces_again.
Qed.

Lemma C2_blank_run_pushes_one_spacer_witness :
  let t := TParagraph (str "a") in
  let st := run (initSection []) ([] ++ [t]) in
  children (run st (repeat TSpace 3)) = children st ++ [blankSpacer]
  /\ run (initSection []) ([] ++ t :: repeat TSpace 3 ++ [THr])
     = run (initSection []) ([] ++ t :: TSpace :: [THr])
  /\ children (run (initSection []) (repeat TSpace 3)) = [].
Proof.
  apply (C2_blank_run_pushes_one_spacer [] [] [THr] (TParagraph (str "a")) 3);
    [lia | discriminate | discriminate].
Defined.

(** C2 as the specification words it does not hold: a run of blank tokens
    at the start of the section's token sequence pushes no Spacer. *)
Lemma C2_leading_blank_run_counterexample :
  translateSection [TSpace; TSpace; TParagraph (str "a")]
  = [textParagraph [plainRun (str "a")]]
  /\ ~ In blankSpacer
       (translateSection [TSpace; TSpace; TParagraph (str "a")]).
Proof.
  split; [reflexivity|].
  intros [H|[]]. discriminate H.
Qed.

(** C6. A token of an unrecognized kind raises nothing and pushes no
    block; one diagnostic line is logged, the blank-run counter is reset to
    zero and the token's kind is remembered as the last one seen (a blank
    token that follows a kind with a non-empty name pushes its Spacer), the
    list counter is untouched, and the loop goes on with the tokens that
    follow: when the next token is not a blank one, the blocks are those of
    the sequence without the unrecognized token. *)
Theorem C6_unrecognized_token_is_skipped :
  forall (log : list string) (pre post : list Token) (type : string),
    unrecognized type ->
    let st := run (initSection log) pre in
    let st' := step st (TOther type) in
    children st' = children st
    /\ logged st' = logged st ++ ["Unhandled token type: " ++ type]%string
    /\ consecutiveBreaks st' = 0
    /\ lastTokenType st' = Some type
    /\ (type <> "" ->
        children (step st' TSpace) = children st' ++ [blankSpacer])
    /\ listCounter st' = listCounter st
    /\ run (initSection log) (pre ++ TOther type :: post) = run st' post
    /\ (startsBlank post = false ->
        children (run st' post) = children (run st post)).
Proof.
  intros log pre post type Hu st st'.
  pose proof (unrecognized_not_space type Hu) as Hns.
  assert (Hc : children st' = children st).
  { subst st'. unfold step. cbn.
    now apply (children_transition st (TOther type)). }
  assert (Hn : listCounter st' = listCounter st).
  { subst st'. unfold step. cbn.
    apply (listCounter_transition st (TOther type)). }
  repeat split.
  - exact Hc.
  - subst st'. unfold step. cbn.
    now rewrite (logged_transition st (TOther type)).
  - intros Hne.
    now rewrite (step_space_first st' type eq_refl Hne Hns eq_refl).
  - exact Hn.
  - rewrite run_app. reflexivity.
  - intros Hp. destruct post as [|t post]; [exact Hc|].
    cbn in Hp. apply String.eqb_neq in Hp.
    rewrite !run_cons.
    apply sameBlocks_run, (step_not_space_sameBlocks st' st t Hp Hc Hn).
Qed.

Lemma C6_unrecognized_token_is_skipped_witness :
  let st := run (initSection []) [TParagraph (str "a")] in
  let st' := step st (TOther "html") in
  children st' = children st
  /\ logged st' = logged st ++ ["Unhandled token type: html"]
  /\ consecutiveBreaks st' = 0
  /\ lastTokenType st' = Some "html"
  /\ ("html" <> "" ->
      children (step st' TSpace) = children st' ++ [blankSpacer])
  /\ listCounter st' = listCounter st
  /\ run (initSection []) ([TParagraph (str "a")] ++ TOther "html" :: [THr])
     = run st' [THr]
  /\ (startsBlank [THr] = false ->
      children (run st' [THr]) = children (run st [THr])).
Proof.
  apply (C6_unrecognized_token_is_skipped [] [TParagraph (str "a")] [THr]
           "html").
  unfold unrecognized, handledTypes. simpl.
  intros H. repeat (destruct H as [H|H]; [discriminate H|]). exact H.
Defined.

(** C7. A blockquote token makes the translator push exactly one Quote
    block, with a left border and an indent, per nested paragraph token, in
    the order of the nested tokens, and nothing for a nested token of any
    other kind; nothing is logged. *)
Theorem C7_blockquote_renders_paragraphs_only :
  forall (log : list string) (pre tokens : list Token),
    let st := run (initSection log) pre in
    let st' := step st (TBlockquote tokens) in
    let quotes :=
      map (fun t => quoteParagraph (processFormattedText t))
        (paragraphTexts tokens) in
    children st' = children st ++ quotes
    /\ Forall (fun p =>
                 border p = Some (mkBorder (Some (greyBorder 15 15)) None)
                 /\ indent p = Some (mkIndent 720 None)) quotes
    /\ logged st' = logged st
    /\ listCounter st' = listCounter st.
Proof.
  intros log pre tokens st st' quotes. repeat split.
  - subst st' quotes. unfold step. cbn. rewrite quoteLoop_paragraphs.
    rewrite (children_transition st (TBlockquote tokens)) by discriminate.
    reflexivity.
  - subst quotes. apply Forall_forall. intros p Hp.
    apply in_map_iff in Hp as (t & <- & _). now split.
  - subst st'. unfold step. cbn.
    apply (logged_transition st (TBlockquote tokens)).
  - subst st'. unfold step. cbn.
    apply (listCounter_transition st (TBlockquote tokens)).
Qed.

Section ListTokens.

Lemma step_list (st : SectionState) (ordered : bool)
    (items : list ListItem) :
  let numberingRef :=
    if ordered
    then Some ("list-" ++ numberToString (listCounter st))%string
    else None in
  children (step st (TList ordered items))
  = listItemsLoop ordered numberingRef items true (children st)
  /\ listCounter (step st (TList ordered items))
     = (if ordered then S (listCounter st) else listCounter st).
Proof.
  pose proof (children_transition st (TList ordered items)) as Hc.
  pose proof (listCounter_transition st (TList ordered items)) as Hn.
  unfold step.
  destruct (transition st (TList ordered items)) as [c l b n g].
  cbn in Hc, Hn. rewrite <- Hn, <- Hc by discriminate.
  destruct ordered; cbn; split; reflexivity.
Qed.

Lemma refsBelow_init (log : list string) (pre : list Token) :
  let st := run (initSection log) pre in
  refsBelow (listCounter st) (children st).
Proof.
  apply refsBelow_run. intros p nr [].
Qed.

End ListTokens.

(** C3 (as amended). A list token with at least two items makes the
    translator push one ListItem block per item, in order; the first item's
    block carries a larger leading (before) spacing, 80, than each
    subsequent item's block, 40.  An ordered list takes the reference
    "list-" followed by the section's list counter, which no block pushed
    earlier in the section carries, and increments the counter; an
    unordered list leaves the counter alone and its blocks carry a bullet
    and no numbering reference. *)
Theorem C3_list_token_blocks :
  forall (log : list string) (pre : list Token) (ordered : bool)
         (items : list ListItem),
    2 <= length items ->
    let st := run (initSection log) pre in
    let st' := step st (TList ordered items) in
    let numberingRef :=
      if ordered
      then Some ("list-" ++ numberToString (listCounter st))%string
      else None in
    exists emitted : list Paragraph,
      children st' = children st ++ emitted
      /\ length emitted = length items
      /\ (forall k item,
             nth_error items k = Some item ->
             nth_error emitted k
             = Some (listItemParagraph ordered numberingRef (k =? 0)
                       (processFormattedText (itemText item))))
      /\ (forall k p,
             nth_error emitted k = Some p ->
             leadingSpace p = if k =? 0 then 80 else 40)
      /\ (if ordered
          then listCounter st' = S (listCounter st)
               /\ (forall p nr,
                      In p (children st) -> numbering p = Some nr ->
                      Some (reference nr) <> numberingRef)
          else listCounter st' = listCounter st
               /\ Forall (fun p => numbering p = None /\ bullet p = Some 0)
                    emitted).
Proof.
  intros log pre ordered items Hlen st st' numberingRef.
  destruct items as [|first rest]; [simpl in Hlen; lia|].
  destruct (step_list st ordered (first :: rest)) as [Hc Hn].
  fold st' in Hc, Hn. fold numberingRef in Hc.
  rewrite listItemsLoop_first in Hc.
  exists (itemParagraph ordered numberingRef true first
          :: map (itemParagraph ordered numberingRef false) rest).
  split; [exact Hc|]. split; [simpl; now rewrite length_map|].
  split; [|split].
  - intros [|k] item Hk; simpl in Hk.
    + now inversion Hk.
    + simpl. now rewrite nth_error_map, Hk.
  - intros [|k] p Hk; simpl in Hk.
    + now inversion Hk.
    + rewrite nth_error_map in Hk.
      destruct (nth_error rest k); [|discriminate].
      now inversion Hk.
  - destruct ordered.
    + split; [exact Hn|]. intros p nr Hin Hnum E.
      destruct (refsBelow_init log pre p nr Hin Hnum) as (j & Hj & Ej).
      fold st in Hj. subst numberingRef. inversion E as [E'].
      rewrite Ej in E'. apply listRef_inj in E'. lia.
    + split; [exact Hn|]. constructor; [now split|].
      apply Forall_forall. intros p Hp.
      apply in_map_iff in Hp as (x & <- & _). now split.
Qed.

Lemma C3_list_token_blocks_witness :
  let items := [mkListItem (str "a"); mkListItem (str "b")] in
  let st := run (initSection []) [] in
  let st' := step st (TList true items) in
  let numberingRef :=
    Some ("list-" ++ numberToString (listCounter st))%string in
  exists emitted : list Paragraph,
    children st' = children st ++ emitted
    /\ length emitted = length items
    /\ (forall k item,
           nth_error items k = Some item ->
           nth_error emitted k
           = Some (listItemParagraph true numberingRef (k =? 0)
                     (processFormattedText (itemText item))))
    /\ (forall k p,
           nth_error emitted k = Some p ->
           leadingSpace p = if k =? 0 then 80 else 40)
    /\ (listCounter st' = S (listCounter st)
        /\ (forall p nr,
               In p (children st) -> numbering p = Some nr ->
               Some (reference nr) <> numberingRef)).
Proof.
  apply (C3_list_token_blocks [] [] true
           [mkListItem (str "a"); mkListItem (str "b")]).
  simpl. lia.
Defined.

(** C3 as the specification words it does not hold: of the two blocks of
    a two-item list the first has the larger leading spacing, not a
    reduced one. *)
Lemma C3_first_item_spacing_counterexample :
  let blocks :=
    translateSection
      [TList true [mkListItem (str "a"); mkListItem (str "b")]] in
  map leadingSpace blocks = [80; 40]
  /\ ~ (nth 0 (map leadingSpace blocks) 0 < nth 1 (map leadingSpace blocks) 0).
Proof.
  split; [reflexivity|]. cbv. lia.
Qed.

(* ================================================================== *)
(** ** The document assembler *)
(* ================================================================== *)

Section Assembler.

Variable lexer : jsstring -> list Token.

Lemma docChildren_convert (md : jsstring) :
  docChildren (convertMarkdownToDocx lexer md)
  = fst (sectionsLoop lexer (length (splitBreaks md [])) 0
           (splitBreaks md []) [] []).
Proof.
  unfold convertMarkdownToDocx. now destruct (sectionsLoop _ _ _ _ _ _).
Qed.

Lemma diagnostics_convert (md : jsstring) :
  diagnostics (convertMarkdownToDocx lexer md)
  = snd (sectionsLoop lexer (length (splitBreaks md [])) 0
           (splitBreaks md []) [] []).
Proof.
  unfold convertMarkdownToDocx. now destruct (sectionsLoop _ _ _ _ _ _).
Qed.

Lemma numbering_convert (md : jsstring) :
  docNumbering (convertMarkdownToDocx lexer md) = numberingConfigs.
Proof.
  unfold convertMarkdownToDocx. now destruct (sectionsLoop _ _ _ _ _ _).
Qed.

(** The blocks of a section do not depend on the log it starts with. *)
Lemma children_run_initSection (log : list string) (tokens : list Token) :
  children (run (initSection log) tokens) = translateSection tokens.
Proof.
  unfold translateSection.
  apply (sameBlocks_run tokens (initSection log) (initSection [])).
  now repeat split.
Qed.

(** *** The translator never pushes an inter-section Spacer *)

Lemma step_keeps (P : Paragraph -> Prop) (st : SectionState) (t : Token) :
  P blankSpacer -> P ruleParagraph ->
  (forall d h, P (headingParagraph d h)) ->
  (forall runs, P (textParagraph runs)) ->
  (forall o r f runs, P (listItemParagraph o r f runs)) ->
  (forall runs, P (quoteParagraph runs)) ->
  (forall runs, P (codeParagraph runs)) ->
  (forall tb, P (tableParagraph tb)) ->
  Forall P (children st) -> Forall P (children (step st t)).
Proof.
  intros Hb Hr Hh Ht Hl Hq Hc Htb H.
  assert (H' : Forall P (children (transition st t))).
  { unfold transition. split_ifs; try exact H.
    cbn. apply Forall_app. split; [exact H|]. now constructor. }
  clear H. unfold step. generalize dependent (transition st t). clear st.
  intros st H.
  destruct t as [|c|d h|hd bd| |qs|ordered items|p|ty]; cbn;
    try exact H;
    try (apply Forall_app; split; [exact H|]; now constructor).
  - rewrite quoteLoop_paragraphs. apply Forall_app. split; [exact H|].
    apply Forall_forall. intros q Hin.
    apply in_map_iff in Hin as (x & <- & _). apply Hq.
  - assert (E : forall it f acc r,
               Forall P acc ->
               Forall P (listItemsLoop ordered r it f acc)).
    { induction it as [|i it IH]; intros f acc r Hacc; [exact Hacc|].
      simpl. apply IH, Forall_app. split; [exact Hacc|].
      constructor; [apply Hl|constructor]. }
    destruct ordered; cbn; now apply E.
Qed.

Lemma run_no_sectionBreak (log : list string) (tokens : list Token) :
  ~ In sectionBreak (children (run (initSection log) tokens)).
Proof.
  assert (H : forall ts st,
             Forall (fun p => p <> sectionBreak) (children st) ->
             Forall (fun p => p <> sectionBreak) (children (run st ts))).
  { induction ts as [|t ts IH]; intros st Hst; [exact Hst|].
    rewrite run_cons. apply IH, step_keeps; try exact Hst;
      try discriminate; intros; discriminate. }
  specialize (H tokens (initSection log) (Forall_nil _)).
  rewrite Forall_forall in H. intros Hin. now apply (H _ Hin).
Qed.

Lemma sectionBreaks_app (ps qs : list Paragraph) :
  sectionBreaks (ps ++ qs) = sectionBreaks ps + sectionBreaks qs.
Proof. apply count_occ_app. Qed.

Lemma sectionBreaks_run (log : list string) (tokens : list Token) :
  sectionBreaks (children (run (initSection log) tokens)) = 0.
Proof. apply count_occ_not_In, run_no_sectionBreak. Qed.

Lemma sectionBreaks_one : sectionBreaks [sectionBreak] = 1.
Proof. reflexivity. Qed.

(** *** Counting the breaks the loop pushes *)

Lemma sectionsLoop_sectionBreaks (sections : list jsstring) :
  forall n sectionIndex allChildren log,
    sectionBreaks
      (fst (sectionsLoop lexer n sectionIndex sections allChildren log))
    = sectionBreaks allChildren + breaksPushed n sectionIndex sections.
Proof.
  induction sections as [|section rest IH];
    intros n sectionIndex allChildren log; simpl; [lia|].
  fold (blank section). destruct (blank section).
  - rewrite IH. destruct (0 <? sectionIndex); [|lia].
    rewrite sectionBreaks_app, sectionBreaks_one. lia.
  - rewrite IH. destruct (sectionIndex <? n - 1);
      rewrite ?sectionBreaks_app, ?sectionBreaks_one, sectionBreaks_run;
      lia.
Qed.

(** The loop only appends to what was pushed before. *)
Lemma sectionsLoop_appends (sections : list jsstring) :
  forall n sectionIndex allChildren log,
    exists more,
      fst (sectionsLoop lexer n sectionIndex sections allChildren log)
      = allChildren ++ more.
Proof.
  induction sections as [|section rest IH];
    intros n sectionIndex allChildren log; simpl.
  - exists []. now rewrite app_nil_r.
  - destruct (isEmpty (trim section)).
    + destruct (0 <? sectionIndex).
      * destruct (IH n (S sectionIndex) (allChildren ++ [sectionBreak]) log)
          as [more E].
        rewrite E, <- app_assoc. eauto.
      * apply IH.
    + match goal with
      | |- context [sectionsLoop _ _ _ _ ?a ?l] =>
          destruct (IH n (S sectionIndex) a l) as [more E]
      end.
      rewrite E. destruct (sectionIndex <? n - 1);
        rewrite <- !app_assoc; eauto.
Qed.

(** The accumulator and the log taken out of the loop over the sections:
    the blocks pushed are each section's own, in section order. *)
Lemma sectionsLoop_blocks (sections : list jsstring) :
  forall n sectionIndex allChildren log,
    fst (sectionsLoop lexer n sectionIndex sections allChildren log)
    = allChildren ++ sectionsBlocks lexer n sectionIndex sections.
Proof.
  induction sections as [|section rest IH];
    intros n sectionIndex allChildren log; simpl.
  - now rewrite app_nil_r.
  - fold (blank section). destruct (blank section).
    + rewrite IH. destruct (0 <? sectionIndex);
        now rewrite <- ?app_assoc.
    + rewrite IH, children_run_initSection.
      destruct (sectionIndex <? n - 1); now rewrite <- ?app_assoc.
Qed.

Lemma docChildren_blocks (md : jsstring) :
  docChildren (convertMarkdownToDocx lexer md)
  = sectionsBlocks lexer (length (splitBreaks md [])) 0 (splitBreaks md []).
Proof. now rewrite docChildren_convert, sectionsLoop_blocks. Qed.

End Assembler.

Section BreakArithmetic.

Lemma splitBreaks_cons2 (c d : ascii) (s cur : jsstring) :
  splitBreaks (c :: d :: s) cur
  = if Ascii.eqb c "\" && Ascii.eqb d "p"
    then cur :: splitBreaks s []
    else splitBreaks (d :: s) (cur ++ [c]).
Proof. reflexivity. Qed.

Lemma countBreaks_cons2 (c d : ascii) (s : jsstring) :
  countBreaks (c :: d :: s)
  = (if Ascii.eqb c "\" && Ascii.eqb d "p" then 1 else 0)
    + countBreaks (d :: s).
Proof. reflexivity. Qed.

Lemma countBreaks_after_p (s : jsstring) :
  countBreaks ("p"%char :: s) = countBreaks s.
Proof. now destruct s. Qed.

Lemma splitBreaks_length_bounded (n : nat) :
  forall s cur,
    length s <= n -> length (splitBreaks s cur) = S (countBreaks s).
Proof.
  induction n as [|n IH]; intros s cur Hn.
  - destruct s; [reflexivity|simpl in Hn; lia].
  - destruct s as [|c [|d s]]; [reflexivity|reflexivity|].
    rewrite splitBreaks_cons2, countBreaks_cons2.
    simpl in Hn.
    destruct (Ascii.eqb c "\" && Ascii.eqb d "p") eqn:E.
    + apply andb_prop in E as [_ Ed]. apply Ascii.eqb_eq in Ed. subst d.
      cbn [length]. rewrite IH by lia.
      now rewrite countBreaks_after_p.
    + rewrite IH by (simpl; lia). reflexivity.
Qed.

Lemma splitBreaks_length (s : jsstring) :
  length (splitBreaks s []) = S (countBreaks s).
Proof. now apply (splitBreaks_length_bounded (length s)). Qed.

Lemma breaksPushed_later (sections : list jsstring) :
  forall n sectionIndex,
    1 <= sectionIndex -> sectionIndex + length sections = n ->
    sections <> [] ->
    breaksPushed n sectionIndex sections + 1
    = length sections + b2n (blank (last sections [])).
Proof.
  induction sections as [|section rest IH];
    intros n sectionIndex Hi Hn Hne; [congruence|].
  destruct rest as [|next rest].
  - simpl in *. destruct (blank section); simpl.
    + destruct (Nat.ltb_spec 0 sectionIndex); lia.
    + destruct (Nat.ltb_spec sectionIndex (n - 1)); lia.
  - pose proof (IH n (S sectionIndex)) as IH'.
    change (last (section :: next :: rest) [])
      with (last (next :: rest) []).
    change (breaksPushed n sectionIndex (section :: next :: rest))
      with ((if blank section
             then if 0 <? sectionIndex then 1 else 0
             else if sectionIndex <? n - 1 then 1 else 0)
            + breaksPushed n (S sectionIndex) (next :: rest)).
    cbn [length] in *.
    assert (Hrest : next :: rest <> []) by discriminate.
    specialize (IH' ltac:(lia) ltac:(lia) Hrest).
    destruct (blank section).
    + destruct (Nat.ltb_spec 0 sectionIndex); lia.
    + destruct (Nat.ltb_spec sectionIndex (n - 1)); lia.
Qed.

Lemma breaksPushed_all (sections : list jsstring) :
  sections <> [] ->
  breaksPushed (length sections) 0 sections
  + b2n (blank (hd [] sections))
  = length sections - 1 + b2n (blank (last sections [])).
Proof.
  intros Hne. destruct sections as [|section rest]; [congruence|].
  destruct rest as [|next rest].
  - simpl. destruct (blank section); reflexivity.
  - pose proof (breaksPushed_later (next :: rest)
                  (length (section :: next :: rest)) 1) as H.
    change (last (section :: next :: rest) [])
      with (last (next :: rest) []).
    change (breaksPushed (length (section :: next :: rest)) 0
              (section :: next :: rest))
      with ((if blank section
             then 0
             else if 0 <? length (section :: next :: rest) - 1
                  then 1 else 0)
            + breaksPushed (length (section :: next :: rest)) 1
                (next :: rest)).
    assert (Hrest : next :: rest <> []) by discriminate.
    specialize (H (le_n 1) eq_refl Hrest).
    cbn [length hd] in *.
    destruct (blank section); cbn [b2n].
    + lia.
    + destruct (Nat.ltb_spec 0 (S (S (length rest)) - 1)); lia.
Qed.

End BreakArithmetic.

(** C1, the code at two ordered lists in two sections: the list counter
    starts at 0 in every section, so both lists carry the reference
    "list-0". *)
Theorem C1_sections_reuse_list_reference :
  forall lexer : jsstring -> list Token,
    lexer (str "1. a") = [TList true [mkListItem (str "a")]] ->
    lexer (str "1. b") = [TList true [mkListItem (str "b")]] ->
    let out := docChildren (convertMarkdownToDocx lexer (str "1. a\p1. b")) in
    out = [listItemParagraph true (Some "list-0") true [plainRun (str "a")];
           sectionBreak;
           listItemParagraph true (Some "list-0") true [plainRun (str "b")]]
    /\ map numbering out
       = [Some (mkNumberingRef "list-0" 0); None;
          Some (mkNumberingRef "list-0" 0)].
Proof.
  intros lexer Ha Hb out.
  assert (E : out
              = [listItemParagraph true (Some "list-0") true
                   [plainRun (str "a")];
                 sectionBreak;
                 listItemParagraph true (Some "list-0") true
                   [plainRun (str "b")]]).
  { subst out. rewrite docChildren_convert.
    change (splitBreaks (str "1. a\p1. b") [])
      with [str "1. a"; str "1. b"].
    cbn [length sectionsLoop].
    change (trim (str "1. a")) with (str "1. a").
    change (trim (str "1. b")) with (str "1. b").
    rewrite Ha, Hb. reflexivity. }
  rewrite E. split; reflexivity.
Qed.

Lemma C1_sections_reuse_list_reference_witness :
  let out :=
    docChildren (convertMarkdownToDocx orderedListLexer (str "1. a\p1. b")) in
  out = [listItemParagraph true (Some "list-0") true [plainRun (str "a")];
         sectionBreak;
         listItemParagraph true (Some "list-0") true [plainRun (str "b")]]
  /\ map numbering out
     = [Some (mkNumberingRef "list-0" 0); None;
        Some (mkNumberingRef "list-0" 0)].
Proof.
  apply (C1_sections_reuse_list_reference orderedListLexer); reflexivity.
Defined.

(** C4 (as amended). With k occurrences of the break marker the input has
    k + 1 sections, and the output is, section after section in input
    order, what each section contributes: a blank first section nothing,
    every other blank section exactly one inter-section Spacer, and a
    non-blank section its own blocks followed, unless it is the last
    section, by one inter-section Spacer.  So the number of inter-section
    Spacers of the output, plus one when the first section is blank, is k,
    plus one when the last section is blank; and when the first section is
    not blank and yields a block, the output does not start with an
    inter-section Spacer. *)
Theorem C4_section_breaks :
  forall (lexer : jsstring -> list Token) (md : jsstring),
    let sections := splitBreaks md [] in
    let out := docChildren (convertMarkdownToDocx lexer md) in
    length sections = S (countBreaks md)
    /\ out = sectionsBlocks lexer (S (countBreaks md)) 0 sections
    /\ sectionBreaks out + b2n (blank (hd [] sections))
       = countBreaks md + b2n (blank (last sections []))
    /\ (blank (hd [] sections) = false ->
        translateSection (lexer (trim (hd [] sections))) <> [] ->
        hd_error out <> Some sectionBreak).
Proof.
  intros lexer md sections out.
  pose proof (splitBreaks_length md) as Hlen. fold sections in Hlen.
  assert (Hne : sections <> []) by (intros E; rewrite E in Hlen; discriminate).
  assert (Hout : out = fst (sectionsLoop lexer (length sections) 0
                              sections [] [])).
  { subst out sections. apply docChildren_convert. }
  split; [exact Hlen|]. split; [|split].
  - rewrite <- Hlen. subst out sections. apply docChildren_blocks.
  - rewrite Hout, sectionsLoop_sectionBreaks.
    change (sectionBreaks []) with 0.
    pose proof (breaksPushed_all sections Hne) as H. lia.
  - intros Hb Hblocks. rewrite Hout.
    destruct sections as [|section rest]; [congruence|].
    cbn [hd] in Hb, Hblocks. cbn [sectionsLoop].
    unfold blank in Hb. rewrite Hb.
    match goal with
    | |- context [sectionsLoop _ ?n ?i _ ?a ?l] =>
        destruct (sectionsLoop_appends lexer rest n i a l) as [more E]
    end.
    rewrite E.
    pose proof (run_no_sectionBreak [] (lexer (trim section))) as Hno.
    rewrite children_run_initSection in *.
    destruct (translateSection (lexer (trim section))) as [|p ps];
      [congruence|].
    assert (Hp : p <> sectionBreak) by (intros ->; apply Hno; now left).
    destruct (0 <? length (section :: rest) - 1); cbn; congruence.
Qed.

Lemma C4_section_breaks_witness :
  let md := str "a\p\pb\p" in
  let sections := splitBreaks md [] in
  let out := docChildren (convertMarkdownToDocx paragraphLexer md) in
  length sections = S (countBreaks md)
  /\ out = sectionsBlocks paragraphLexer (S (countBreaks md)) 0 sections
  /\ sectionBreaks out + b2n (blank (hd [] sections))
     = countBreaks md + b2n (blank (last sections []))
  /\ (blank (hd [] sections) = false ->
      translateSection (paragraphLexer (trim (hd [] sections))) <> [] ->
      hd_error out <> Some sectionBreak).
Proof.
  exact (C4_section_breaks paragraphLexer (str "a\p\pb\p")).
Defined.

(** C4 as the specification words it does not hold: the input made of the
    break marker alone yields an output whose only block, at position 0, is
    an inter-section Spacer; and one non-blank section followed by the
    marker yields two inter-section Spacers for one occurrence of the
    marker. *)
Lemma C4_spacer_at_position_0_counterexample :
  docChildren (convertMarkdownToDocx paragraphLexer (str "\p"))
  = [sectionBreak]
  /\ countBreaks (str "a\p") = 1
  /\ docChildren (convertMarkdownToDocx paragraphLexer (str "a\p"))
     = [textParagraph [plainRun (str "a")]; sectionBreak; sectionBreak].
Proof. repeat split. Qed.

(** C8. Whatever the input, the numbering definitions attached to the
    document are the same 100 definitions, with the references "list-0" to
    "list-99" in this order, each of one level with decimal format, the
    "%1." template and the indent left 720, hanging 360. *)
Theorem C8_numbering_pool_is_fixed :
  forall (lexer : jsstring -> list Token) (md : jsstring),
    let configs := docNumbering (convertMarkdownToDocx lexer md) in
    length configs = 100
    /\ map configReference configs
       = map (fun i => ("list-" ++ numberToString i)%string) (seq 0 100)
    /\ hd_error (map configReference configs) = Some "list-0"
    /\ last (map configReference configs) "" = "list-99"
    /\ Forall (fun c =>
                 levels c
                 = [mkNumberingLevel 0 "decimal" "%1." LEFT
                      (mkIndent 720 (Some 360))]) configs.
Proof.
  intros lexer md configs. subst configs. rewrite numbering_convert.
  repeat split.
  apply Forall_forall. intros c Hc.
  assert (E : numberingConfigs = map numberingConfig (seq 0 100))
    by reflexivity.
  rewrite E in Hc. apply in_map_iff in Hc as (i & <- & _). reflexivity.
Qed.

Lemma whiteSpace_no_backslash (s : jsstring) :
  forallb isWhiteSpace s = true -> ~ In "\"%char s.
Proof.
  intros H Hin. rewrite forallb_forall in H.
  specialize (H _ Hin). discriminate H.
Qed.

(** C9. An input that is empty or made of white space only is converted
    without error into a document with no block at all, and nothing is
    logged as unhandled. *)
Theorem C9_blank_input_gives_no_block :
  forall (lexer : jsstring -> list Token) (md : jsstring),
    forallb isWhiteSpace md = true ->
    docChildren (convertMarkdownToDocx lexer md) = []
    /\ diagnostics (convertMarkdownToDocx lexer md) = [].
Proof.
  intros lexer md H.
  rewrite docChildren_convert, diagnostics_convert.
  rewrite (splitBreaks_no_backslash md [] (whiteSpace_no_backslash md H)).
  cbn [app length sectionsLoop]. rewrite (trim_blank md H).
  split; reflexivity.
Qed.

Lemma C9_blank_input_gives_no_block_witness :
  let md := str "  " ++ [LF] ++ str " " in
  docChildren (convertMarkdownToDocx paragraphLexer md) = []
  /\ diagnostics (convertMarkdownToDocx paragraphLexer md) = [].
Proof.
  apply (C9_blank_input_gives_no_block paragraphLexer). reflexivity.
Defined.

(* ================================================================== *)
(** * Further properties of the inline formatter *)
(* ================================================================== *)

Section PlainText.

Lemma noDelimiter_cons (c : ascii) (s : jsstring) :
  noDelimiter (c :: s) = true ->
  c <> "*"%char /\ c <> "`"%char /\ noDelimiter s = true.
Proof.
  intros H. apply andb_prop in H as [Hc Hs].
  apply negb_true_iff, orb_false_elim in Hc as [H1 H2].
  apply Ascii.eqb_neq in H1, H2. auto.
Qed.

Lemma noDelimiter_In (s : jsstring) (c : ascii) :
  noDelimiter s = true -> In c s -> c <> "*"%char /\ c <> "`"%char.
Proof.
  induction s as [|d s IH]; intros H Hin; [easy|].
  apply noDelimiter_cons in H as (H1 & H2 & Hs).
  destruct Hin as [<-|Hin]; auto.
Qed.

(** The pattern only matches at a delimiter. *)
Lemma matchInline_not_delimiter (c : ascii) (s : jsstring) :
  c <> "*"%char -> c <> "`"%char -> matchInline (c :: s) = None.
Proof.
  intros H1 H2. unfold matchInline, matchSpan.
  change (str "**") with ["*"; "*"]%char.
  change (str "*") with ["*"]%char.
  change (str "`") with ["`"]%char.
  rewrite !stripPrefix_head_neq by congruence. reflexivity.
Qed.

Lemma splitInlineFrom_cons (fuel : nat) (c : ascii) (s cur : jsstring) :
  splitInlineFrom (S fuel) (c :: s) cur
  = match matchInline (c :: s) with
    | Some (m, rest) => cur :: m :: splitInlineFrom fuel rest []
    | None => splitInlineFrom fuel s (cur ++ [c])
    end.
Proof. reflexivity. Qed.

(** The search walks over text without delimiter. *)
Lemma splitInlineFrom_skip (a : jsstring) :
  forall s cur fuel,
    noDelimiter a = true -> length (a ++ s) <= fuel ->
    splitInlineFrom fuel (a ++ s) cur = splitInlineFrom fuel s (cur ++ a).
Proof.
  induction a as [|c a IH]; intros s cur fuel Ha Hf.
  - now rewrite app_nil_r.
  - apply noDelimiter_cons in Ha as (H1 & H2 & Ha).
    destruct fuel as [|fuel]; [simpl in Hf; lia|].
    simpl in Hf. cbn [app]. rewrite splitInlineFrom_cons.
    rewrite (matchInline_not_delimiter c (a ++ s) H1 H2).
    rewrite IH by (exact Ha || lia).
    rewrite <- app_assoc. cbn [app].
    apply splitInlineFrom_fuel; rewrite length_app in Hf; lia.
Qed.

Lemma splitInlineFrom_noDelimiter (s cur : jsstring) (fuel : nat) :
  noDelimiter s = true -> length s <= fuel ->
  splitInlineFrom fuel s cur = [cur ++ s].
Proof.
  intros H Hf. rewrite <- (app_nil_r s) at 1.
  rewrite splitInlineFrom_skip by (exact H || (rewrite app_nil_r; lia)).
  now destruct fuel.
Qed.

Lemma splitInline_noDelimiter (s : jsstring) :
  noDelimiter s = true -> splitInline s = [s].
Proof.
  intros H. unfold splitInline.
  now rewrite splitInlineFrom_noDelimiter.
Qed.

Lemma partToRun_not_delimiter (c : ascii) (s : jsstring) :
  c <> "*"%char -> c <> "`"%char -> partToRun (c :: s) = plainRun (c :: s).
Proof.
  intros H1 H2. unfold partToRun, startsWith.
  change (str "**") with ["*"; "*"]%char.
  change (str "*") with ["*"]%char.
  change (str "`") with ["`"]%char.
  rewrite !stripPrefix_head_neq by congruence. reflexivity.
Qed.

Lemma lazyUntil_absent (q : ascii) (close' s : jsstring) :
  ~ In q s -> lazyUntil (q :: close') s = None.
Proof.
  induction s as [|c s IH]; intros H; [reflexivity|].
  unfold lazyUntil; fold lazyUntil.
  rewrite stripPrefix_head_neq by (intros ->; apply H; now left).
  destruct (isLineTerminator c); [reflexivity|].
  rewrite IH by (intros Hin; apply H; now right). reflexivity.
Qed.

(** A delimiter with no partner after it opens no span. *)
Lemma matchInline_lone (q : ascii) (b : jsstring) :
  (q = "*" \/ q = "`")%char -> noDelimiter b = true ->
  matchInline (q :: b) = None.
Proof.
  intros Hq Hb.
  assert (Hs : ~ In "*"%char b)
    by (intros Hin; now destruct (noDelimiter_In b _ Hb Hin)).
  assert (Hk : ~ In "`"%char b)
    by (intros Hin; now destruct (noDelimiter_In b _ Hb Hin)).
  unfold matchInline, matchSpan.
  change (str "**") with ["*"; "*"]%char.
  change (str "*") with ["*"]%char.
  change (str "`") with ["`"]%char.
  destruct Hq as [-> | ->].
  - assert (E : stripPrefix ["*"; "*"]%char ("*"%char :: b) = None).
    { destruct b as [|c b]; [reflexivity|].
      apply noDelimiter_cons in Hb as (H1 & _).
      cbn [stripPrefix]. rewrite Ascii.eqb_refl.
      destruct (Ascii.eqb_spec "*" c); [congruence|reflexivity]. }
    rewrite E. cbn [stripPrefix]. rewrite Ascii.eqb_refl.
    rewrite (lazyUntil_absent "*" [] b Hs). reflexivity.
  - cbn [stripPrefix]. rewrite Ascii.eqb_refl.
    change (Ascii.eqb "*" "`") with false. cbv iota.
    rewrite (lazyUntil_absent "`" [] b Hk). reflexivity.
Qed.

Lemma splitInline_lone (q : ascii) (a b : jsstring) :
  (q = "*" \/ q = "`")%char ->
  noDelimiter a = true -> noDelimiter b = true ->
  splitInline (a ++ q :: b) = [a ++ q :: b].
Proof.
  intros Hq Ha Hb. unfold splitInline.
  rewrite splitInlineFrom_skip by (exact Ha || lia).
  rewrite length_app. cbn [length]. rewrite Nat.add_succ_r.
  rewrite splitInlineFrom_cons, (matchInline_lone q b Hq Hb).
  rewrite splitInlineFrom_noDelimiter by (exact Hb || lia).
  rewrite <- !app_assoc. reflexivity.
Qed.

Lemma startsWith_last_neq (q : ascii) (s : jsstring) :
  s <> [] -> ~ In q s -> endsWith (q :: s) [q] = false.
Proof.
  intros Hne Hin. unfold endsWith, startsWith. cbn [rev app].
  destruct (rev s) as [|z r] eqn:E.
  - apply (f_equal (@rev ascii)) in E. rewrite rev_involutive in E.
    now elim Hne.
  - cbn [app]. rewrite stripPrefix_head_neq; [reflexivity|].
    intros ->. apply Hin, in_rev. rewrite E. now left.
Qed.

End PlainText.

(** X1. A text that holds no asterisk, no backtick and no newline, and is
    not empty, comes back as one plain run carrying the whole text. *)
Theorem X1_plain_text_is_one_plain_run :
  forall t : jsstring,
    t <> [] -> noDelimiter t = true -> ~ In LF t ->
    processFormattedText t = [plainRun t].
Proof.
  intros t Hne Hd Hlf.
  rewrite processFormattedText_one_line by exact Hlf.
  unfold lineRuns. rewrite splitInline_noDelimiter by exact Hd.
  destruct t as [|c t]; [congruence|].
  apply noDelimiter_cons in Hd as (H1 & H2 & _).
  cbn [filter isEmpty negb map].
  now rewrite partToRun_not_delimiter.
Qed.

Lemma X1_plain_text_is_one_plain_run_witness :
  processFormattedText (str "Hello, world") = [plainRun (str "Hello, world")].
Proof.
  apply X1_plain_text_is_one_plain_run;
    [discriminate | reflexivity |].
  unfold LF. simpl. intuition discriminate.
Defined.

(** X2. An asterisk or a backtick that has no partner on its line opens no
    span: a one-line text holding a single delimiter character, and
    something else besides, comes back as one plain run with the delimiter
    kept in the text. *)
Theorem X2_lone_delimiter_stays_literal :
  forall (q : ascii) (a b : jsstring),
    (q = "*" \/ q = "`")%char ->
    noDelimiter a = true -> noDelimiter b = true ->
    ~ In LF a -> ~ In LF b ->
    a ++ b <> [] ->
    processFormattedText (a ++ q :: b) = [plainRun (a ++ q :: b)].
Proof.
  intros q a b Hq Ha Hb La Lb Hne.
  rewrite processFormattedText_one_line.
  2:{ rewrite in_app_iff. intros [H|[H|H]]; auto.
      destruct Hq; subst q; discriminate H. }
  unfold lineRuns. rewrite splitInline_lone by assumption.
  assert (Hpart : negb (isEmpty (a ++ q :: b)) = true) by now destruct a.
  cbn [filter]. rewrite Hpart. cbn [map]. f_equal.
  destruct a as [|c a].
  - destruct b as [|d b]; [now elim Hne|]. cbn [app].
    assert (Hs : ~ In "*"%char (d :: b))
      by (intros Hin; now destruct (noDelimiter_In _ _ Hb Hin)).
    assert (Hk : ~ In "`"%char (d :: b))
      by (intros Hin; now destruct (noDelimiter_In _ _ Hb Hin)).
    apply noDelimiter_cons in Hb as (H1 & H2 & _).
    unfold partToRun.
    change (str "**") with ["*"; "*"]%char.
    change (str "*") with ["*"]%char.
    change (str "`") with ["`"]%char.
    destruct Hq as [-> | ->].
    + assert (S2 : startsWith ("*"%char :: d :: b) ["*"; "*"]%char = false).
      { unfold startsWith. cbn [stripPrefix]. rewrite Ascii.eqb_refl.
        destruct (Ascii.eqb_spec "*" d); [congruence|reflexivity]. }
      rewrite S2.
      rewrite (startsWith_last_neq "*" (d :: b)) by (discriminate || exact Hs).
      rewrite andb_false_r. reflexivity.
    + rewrite (startsWith_last_neq "`" (d :: b)) by (discriminate || exact Hk).
      rewrite andb_false_r. reflexivity.
  - apply noDelimiter_cons in Ha as (H1 & H2 & _).
    cbn [app]. now apply partToRun_not_delimiter.
Qed.

Lemma X2_lone_delimiter_stays_literal_witness :
  processFormattedText (str "2 " ++ "*"%char :: str " 3")
  = [plainRun (str "2 " ++ "*"%char :: str " 3")].
Proof.
  apply X2_lone_delimiter_stays_literal;
    try reflexivity; try discriminate; [now left | |];
    unfold LF; simpl; intuition discriminate.
Defined.

Section SpansInText.

Lemma splitInline_prefix_match (pre s m rest : jsstring) :
  noDelimiter pre = true -> matchInline s = Some (m, rest) ->
  splitInline (pre ++ s) = pre :: m :: splitInline rest.
Proof.
  intros Hpre Hm. unfold splitInline.
  rewrite splitInlineFrom_skip by (exact Hpre || lia).
  destruct s as [|c s]; [discriminate|].
  rewrite length_app. cbn [length]. rewrite Nat.add_succ_r.
  rewrite splitInlineFrom_cons, Hm. cbn [app].
  do 2 f_equal. apply matchInline_length in Hm. cbn [length] in Hm.
  apply splitInlineFrom_fuel; lia.
Qed.

Lemma lineRuns_prefix_match (pre s m rest : jsstring) :
  noDelimiter pre = true -> matchInline s = Some (m, rest) -> m <> [] ->
  lineRuns (pre ++ s)
  = match pre with [] => [] | _ :: _ => [plainRun pre] end
    ++ partToRun m :: lineRuns rest.
Proof.
  intros Hpre Hm Hne. unfold lineRuns.
  rewrite (splitInline_prefix_match pre s m rest Hpre Hm).
  destruct m as [|m0 m]; [congruence|].
  destruct pre as [|c pre]; cbn [filter isEmpty negb map app];
    [reflexivity|].
  apply noDelimiter_cons in Hpre as (H1 & H2 & _).
  now rewrite partToRun_not_delimiter.
Qed.

End SpansInText.

(** X3. On a one-line text, plain text followed by a well-formed span
    gives the plain text as one plain run (none when it is empty), then
    the span's content as one run in the span's style, then the runs of
    what follows the span.  The content of a bold or italic span holds no
    asterisk, that of a code span no backtick, none a line terminator; the
    content of an italic span is not empty. *)
Theorem X3_plain_text_then_span :
  forall pre rest : jsstring,
    noDelimiter pre = true -> ~ In LF pre -> ~ In LF rest ->
    let plain := match pre with [] => [] | _ :: _ => [plainRun pre] end in
    (forall b, freeOf "*" b = true ->
       processFormattedText (pre ++ str "**" ++ b ++ str "**" ++ rest)
       = plain ++ boldRun b :: processFormattedText rest)
    /\ (forall i, spanContent "*" i = true ->
          processFormattedText (pre ++ str "*" ++ i ++ str "*" ++ rest)
          = plain ++ italicRun i :: processFormattedText rest)
    /\ (forall c, freeOf "`" c = true ->
          processFormattedText (pre ++ str "`" ++ c ++ str "`" ++ rest)
          = plain ++ codeRun c :: processFormattedText rest).
Proof.
  intros pre rest Hpre Lpre Lrest plain.
  rewrite (processFormattedText_one_line rest Lrest).
  split; [|split].
  - intros b Hb. pose proof (freeOf_no_LF "*" b Hb) as Lb.
    rewrite processFormattedText_one_line.
    2:{ rewrite !in_app_iff. unfold str, LF. simpl.
        intuition discriminate. }
    rewrite (lineRuns_prefix_match pre _ _ rest Hpre
               (matchInline_bold b rest Hb)) by discriminate.
    now rewrite partToRun_bold.
  - intros i Hi. apply spanContent_inv in Hi as [Ni Hi].
    pose proof (freeOf_no_LF "*" i Hi) as Li.
    rewrite processFormattedText_one_line.
    2:{ rewrite !in_app_iff. unfold str, LF. simpl.
        intuition discriminate. }
    destruct i as [|i0 i]; [congruence|].
    rewrite (lineRuns_prefix_match pre _ _ rest Hpre
               (matchInline_italic i0 i rest Hi)) by discriminate.
    now rewrite (partToRun_italic i0 i Hi).
  - intros c Hc. pose proof (freeOf_no_LF "`" c Hc) as Lc.
    rewrite processFormattedText_one_line.
    2:{ rewrite !in_app_iff. unfold str, LF. simpl.
        intuition discriminate. }
    rewrite (lineRuns_prefix_match pre _ _ rest Hpre
               (matchInline_code c rest Hc)) by discriminate.
    now rewrite partToRun_code.
Qed.

Lemma X3_plain_text_then_span_witness :
  processFormattedText (str "Hello " ++ str "**" ++ str "world" ++ str "**"
                        ++ str "!")
  = [plainRun (str "Hello ")] ++ boldRun (str "world")
      :: processFormattedText (str "!").
Proof.
  assert (L1 : ~ In LF (str "Hello "))
    by (unfold LF; simpl; intuition discriminate).
  assert (L2 : ~ In LF (str "!"))
    by (unfold LF; simpl; intuition discriminate).
  exact (proj1 (X3_plain_text_then_span (str "Hello ") (str "!")
                  eq_refl L1 L2) (str "world") eq_refl).
Defined.

(* ------------------------------------------------------------------ *)

Section Lines.

Lemma linesLoop_joinLines (lines : list jsstring) :
  forall n lineIndex allRuns,
    lineIndex + length lines = n ->
    linesLoop n lineIndex lines allRuns = allRuns ++ joinLines lines.
Proof.
  induction lines as [|line rest IH]; intros n lineIndex allRuns Hn.
  - simpl. now rewrite app_nil_r.
  - cbn [linesLoop joinLines]. cbn [length] in Hn.
    destruct rest as [|next rest].
    + destruct (Nat.ltb_spec lineIndex (n - 1)); [simpl in Hn; lia|].
      reflexivity.
    + destruct (Nat.ltb_spec lineIndex (n - 1));
        [|cbn [length] in Hn; lia].
      rewrite IH by (cbn [length] in *; lia).
      rewrite <- !app_assoc. reflexivity.
Qed.

Lemma processFormattedText_joinLines (t : jsstring) :
  processFormattedText t = joinLines (splitLines t []).
Proof.
  unfold processFormattedText. now rewrite linesLoop_joinLines.
Qed.

Lemma splitLines_not_nil (s cur : jsstring) : splitLines s cur <> [].
Proof.
  revert cur. induction s as [|c s IH]; intros cur; simpl; [discriminate|].
  destruct (Ascii.eqb c LF); [discriminate|apply IH].
Qed.

Lemma splitLines_app (a b cur : jsstring) :
  splitLines (a ++ LF :: b) cur = splitLines a cur ++ splitLines b [].
Proof.
  revert cur. induction a as [|c a IH]; intros cur.
  - cbn [app splitLines]. now rewrite Ascii.eqb_refl.
  - cbn [app splitLines]. destruct (Ascii.eqb c LF); [|apply IH].
    now rewrite IH.
Qed.

Lemma joinLines_app (l1 l2 : list jsstring) :
  l1 <> [] -> l2 <> [] ->
  joinLines (l1 ++ l2) = joinLines l1 ++ breakRun :: joinLines l2.
Proof.
  intros H1 H2. induction l1 as [|a l1 IH]; [congruence|].
  destruct l1 as [|b l1].
  - destruct l2 as [|c l2]; [congruence|]. reflexivity.
  - change (joinLines ((a :: b :: l1) ++ l2))
      with (lineRuns a ++ breakRun :: joinLines ((b :: l1) ++ l2)).
    rewrite IH by discriminate.
    change (joinLines (a :: b :: l1))
      with (lineRuns a ++ breakRun :: joinLines (b :: l1)).
    rewrite <- app_assoc. reflexivity.
Qed.

Lemma splitLines_length (s cur : jsstring) :
  length (splitLines s cur) = S (countLF s).
Proof.
  revert cur. induction s as [|c s IH]; intros cur; [reflexivity|].
  unfold countLF. cbn [splitLines count_occ].
  destruct (Ascii.eqb_spec c LF) as [->|Hc].
  - destruct (ascii_dec LF LF); [|congruence].
    cbn [length]. now rewrite IH.
  - destruct (ascii_dec c LF); [congruence|]. apply IH.
Qed.

Lemma partToRun_not_break (part : jsstring) :
  isBreakRun (partToRun part) = false.
Proof. unfold partToRun. now split_ifs. Qed.

Lemma lineRuns_no_break (line : jsstring) :
  filter isBreakRun (lineRuns line) = [].
Proof.
  unfold lineRuns.
  induction (filter (fun part => negb (isEmpty part)) (splitInline line))
    as [|p ps IH]; [reflexivity|].
  cbn [map filter]. now rewrite partToRun_not_break.
Qed.

Lemma joinLines_breaks (lines : list jsstring) :
  length (filter isBreakRun (joinLines lines)) = length lines - 1.
Proof.
  induction lines as [|line rest IH]; [reflexivity|].
  destruct rest as [|next rest].
  - cbn [joinLines]. now rewrite lineRuns_no_break.
  - change (joinLines (line :: next :: rest))
      with (lineRuns line ++ breakRun :: joinLines (next :: rest)).
    rewrite filter_app, lineRuns_no_break. cbn [app filter isBreakRun].
    change (isBreakRun breakRun) with true. cbv iota.
    cbn [length] in *. rewrite IH. lia.
Qed.

End Lines.

(** X4. A newline inside a block's text becomes a break run between the
    runs of what precedes it and the runs of what follows it: the
    formatter works line by line. *)
Theorem X4_newline_is_a_break_run :
  forall a b : jsstring,
    processFormattedText (a ++ LF :: b)
    = processFormattedText a ++ breakRun :: processFormattedText b.
Proof.
  intros a b. rewrite !processFormattedText_joinLines, splitLines_app.
  apply joinLines_app; apply splitLines_not_nil.
Qed.

(** X5. The formatter emits exactly one break run per newline of the
    text, whatever else the text holds. *)
Theorem X5_one_break_run_per_newline :
  forall t : jsstring,
    length (filter isBreakRun (processFormattedText t)) = countLF t.
Proof.
  intros t. rewrite processFormattedText_joinLines, joinLines_breaks.
  rewrite splitLines_length. lia.
Qed.

(* ================================================================== *)
(** * Further properties of the block translator *)
(* ================================================================== *)

Section TranslatorLoop.

Lemma listItemsLoop_acc (ordered : bool) (numberingRef : option string)
    (items : list ListItem) :
  forall isFirstItem acc,
    listItemsLoop ordered numberingRef items isFirstItem acc
    = acc ++ listItemsLoop ordered numberingRef items isFirstItem [].
Proof.
  destruct items as [|item rest]; intros isFirstItem acc.
  - simpl. now rewrite app_nil_r.
  - cbn [listItemsLoop]. rewrite !listItemsLoop_rest.
    now rewrite <- app_assoc.
Qed.

Lemma transition_appends (st : SectionState) (t : Token) :
  exists more, children (transition st t) = children st ++ more.
Proof.
  unfold transition. split_ifs; cbn;
    solve [exists [blankSpacer]; reflexivity
          | exists []; now rewrite app_nil_r].
Qed.

Lemma dispatch_appends (st : SectionState) (t : Token) :
  exists more, children (dispatch st t) = children st ++ more.
Proof.
  destruct t as [|c|d h|hd bd| |qs|ordered items|p|ty]; cbn;
    try solve [eexists; reflexivity | exists []; now rewrite app_nil_r].
  - rewrite quoteLoop_paragraphs. eexists; reflexivity.
  - destruct ordered; cbn; rewrite listItemsLoop_acc; eexists; reflexivity.
Qed.

Lemma step_appends (st : SectionState) (t : Token) :
  exists more, children (step st t) = children st ++ more.
Proof.
  destruct (transition_appends st t) as [m1 E1].
  destruct (dispatch_appends (transition st t) t) as [m2 E2].
  exists (m1 ++ m2). unfold step. cbn.
  now rewrite E2, E1, app_assoc.
Qed.

Lemma run_appends (ts : list Token) :
  forall st, exists more, children (run st ts) = children st ++ more.
Proof.
  induction ts as [|t ts IH]; intros st.
  - exists []. simpl. now rewrite app_nil_r.
  - rewrite run_cons. destruct (IH (step st t)) as [m2 E2].
    destruct (step_appends st t) as [m1 E1].
    exists (m1 ++ m2). now rewrite E2, E1, app_assoc.
Qed.

(** What holds of every paragraph a [case] can push holds of the blocks
    after the [switch]. *)
Lemma dispatch_keeps (P : Paragraph -> Prop) (st : SectionState) (t : Token) :
  P ruleParagraph ->
  (forall d h, P (headingParagraph d h)) ->
  (forall runs, P (textParagraph runs)) ->
  (forall o r f runs, P (listItemParagraph o r f runs)) ->
  (forall runs, P (quoteParagraph runs)) ->
  (forall runs, P (codeParagraph runs)) ->
  (forall tb, P (tableParagraph tb)) ->
  Forall P (children st) -> Forall P (children (dispatch st t)).
Proof.
  intros Hr Hh Ht Hl Hq Hc Htb H.
  destruct t as [|c|d h|hd bd| |qs|ordered items|p|ty]; cbn;
    try exact H;
    try (apply Forall_app; split; [exact H|]; now constructor).
  - rewrite quoteLoop_paragraphs. apply Forall_app. split; [exact H|].
    apply Forall_forall. intros q Hin.
    apply in_map_iff in Hin as (x & <- & _). apply Hq.
  - assert (E : forall it f acc r,
               Forall P acc ->
               Forall P (listItemsLoop ordered r it f acc)).
    { induction it as [|i it IH]; intros f acc r Hacc; [exact Hacc|].
      simpl. apply IH, Forall_app. split; [exact Hacc|].
      constructor; [apply Hl|constructor]. }
    destruct ordered; cbn; now apply E.
Qed.

(** *** The blank-run counter *)

Lemma step_breaks_zero (st : SectionState) (t : Token) :
  t <> TSpace -> consecutiveBreaks (step st t) = 0.
Proof.
  intros H.
  destruct t as [|c|d h|hd bd| |qs|ordered items|p|ty];
    try reflexivity; [congruence|now destruct ordered].
Qed.

Lemma breaksInvariant_step (st : SectionState) (t : Token) :
  breaksInvariant st -> breaksInvariant (step st t).
Proof.
  intros [Hle Hz]. unfold breaksInvariant.
  destruct t as [|c|d h|hd bd| |qs|ordered items|p|ty];
    try (rewrite step_breaks_zero by discriminate; split; [lia|reflexivity]).
  split; [|intros H; now elim H].
  unfold step, transition. cbn.
  destruct (truthy (lastTokenType st)
            && negb (sameType (lastTokenType st) "space")) eqn:E;
    [|exact Hle].
  apply andb_prop in E as [_ E]. apply negb_true_iff in E.
  rewrite Hz.
  - reflexivity.
  - intros Hl. rewrite Hl in E. discriminate E.
Qed.

Lemma breaksInvariant_run (ts : list Token) :
  forall st, breaksInvariant st -> breaksInvariant (run st ts).
Proof.
  induction ts as [|t ts IH]; intros st H; [exact H|].
  rewrite run_cons. apply IH, breaksInvariant_step, H.
Qed.

(** *** The list counter *)

Lemma listCounter_step (st : SectionState) (t : Token) :
  listCounter (step st t)
  = listCounter st + (if isOrderedList t then 1 else 0).
Proof.
  pose proof (listCounter_transition st t) as H. unfold step.
  destruct (transition st t) as [c l b n g]. cbn in H. subst n.
  destruct t as [|c0|d h|hd bd| |qs|[] items|p|ty]; cbn; lia.
Qed.

Lemma listCounter_run (ts : list Token) :
  forall st, listCounter (run st ts) = listCounter st + orderedLists ts.
Proof.
  unfold orderedLists.
  induction ts as [|t ts IH]; intros st; [simpl; lia|].
  rewrite run_cons, IH, listCounter_step. cbn [filter].
  destruct (isOrderedList t); cbn [length]; lia.
Qed.

(** *** The log *)

Lemma logged_step (st : SectionState) (t : Token) :
  logged (step st t) = logged st ++ map unhandledLine (otherTypes [t]).
Proof.
  pose proof (logged_transition st t) as H. unfold step.
  destruct (transition st t) as [c l b n g]. cbn in H. subst g.
  destruct t as [|c0|d h|hd bd| |qs|[] items|p|ty]; cbn;
    now rewrite ?app_nil_r.
Qed.

Lemma otherTypes_cons (t : Token) (ts : list Token) :
  otherTypes (t :: ts) = otherTypes [t] ++ otherTypes ts.
Proof. now destruct t. Qed.

Lemma logged_run (ts : list Token) :
  forall st,
    logged (run st ts) = logged st ++ map unhandledLine (otherTypes ts).
Proof.
  induction ts as [|t ts IH]; intros st.
  - simpl. now rewrite app_nil_r.
  - rewrite run_cons, IH, logged_step, (otherTypes_cons t ts).
    now rewrite map_app, app_assoc.
Qed.

End TranslatorLoop.

(** X6. The blank-run counter never exceeds 1 and is 0 whenever the last
    token read was not a blank one, so the test [consecutiveBreaks <= 1]
    never holds a Spacer back: blank runs collapse only because a blank
    token that follows a blank token is skipped. *)
Theorem X6_blank_run_counter_at_most_one :
  forall (log : list string) (tokens : list Token),
    let st := run (initSection log) tokens in
    consecutiveBreaks st <= 1
    /\ (lastTokenType st <> Some "space" -> consecutiveBreaks st = 0).
Proof.
  intros log tokens. apply breaksInvariant_run.
  split; [cbn; lia|reflexivity].
Qed.

Lemma X6_blank_run_counter_at_most_one_witness :
  let st :=
    run (initSection [])
      [TParagraph (str "a"); TSpace; TSpace; THr; TSpace] in
  consecutiveBreaks st <= 1
  /\ (lastTokenType st <> Some "space" -> consecutiveBreaks st = 0).
Proof.
  exact (X6_blank_run_counter_at_most_one []
           [TParagraph (str "a"); TSpace; TSpace; THr; TSpace]).
Defined.

(** X7. Spacers come from blank tokens only: the blocks of a section whose
    tokens are all of another kind hold no Spacer. *)
Theorem X7_no_blank_token_no_spacer :
  forall tokens : list Token,
    (forall t, In t tokens -> tokenType t <> "space") ->
    ~ In blankSpacer (translateSection tokens).
Proof.
  intros tokens Hts.
  assert (H : forall ts st,
             (forall t, In t ts -> tokenType t <> "space") ->
             Forall (fun p => p <> blankSpacer) (children st) ->
             Forall (fun p => p <> blankSpacer) (children (run st ts))).
  { induction ts as [|t ts IH]; intros st Hs Hst; [exact Hst|].
    rewrite run_cons. apply IH; [intros u Hu; apply Hs; now right|].
    unfold step. cbn.
    apply dispatch_keeps; try discriminate; try (intros; discriminate).
    rewrite children_transition by (apply Hs; now left). exact Hst. }
  specialize (H tokens (initSection []) Hts (Forall_nil _)).
  rewrite Forall_forall in H. intros Hin. now apply (H _ Hin).
Qed.

Lemma X7_no_blank_token_no_spacer_witness :
  ~ In blankSpacer
      (translateSection [THeading 1 (str "T"); TParagraph (str "a"); THr]).
Proof.
  apply X7_no_blank_token_no_spacer.
  intros t [<-|[<-|[<-|[]]]]; discriminate.
Defined.

(** X8. The translator only appends: the blocks of a token sequence start
    with the blocks of each of its prefixes, so a token never changes,
    drops or reorders what the tokens before it pushed. *)
Theorem X8_translator_only_appends :
  forall a b : list Token,
    exists more, translateSection (a ++ b) = translateSection a ++ more.
Proof.
  intros a b. unfold translateSection. rewrite run_app.
  apply run_appends.
Qed.

(** X9. In a section the list counter is the number of ordered list tokens
    read so far, so the blocks of an ordered list all carry, at level 0,
    the reference "list-" followed by the number of ordered lists that
    precede it in its section. *)
Theorem X9_ordered_list_reference :
  forall (log : list string) (pre : list Token) (items : list ListItem),
    let st := run (initSection log) pre in
    let st' := step st (TList true items) in
    listCounter st = orderedLists pre
    /\ exists emitted,
         children st' = children st ++ emitted
         /\ length emitted = length items
         /\ Forall (fun p =>
                      numbering p
                      = Some (mkNumberingRef (listRef (orderedLists pre)) 0))
              emitted.
Proof.
  intros log pre items st st'.
  assert (Hn : listCounter st = orderedLists pre).
  { subst st. now rewrite listCounter_run. }
  split; [exact Hn|].
  destruct (step_list st true items) as [Hc _]. fold st' in Hc.
  cbv zeta in Hc. rewrite Hn in Hc. rewrite listItemsLoop_acc in Hc.
  eexists. split; [exact Hc|].
  destruct items as [|item rest]; [split; [reflexivity|constructor]|].
  rewrite listItemsLoop_first. cbn [app]. split.
  - cbn [length]. now rewrite length_map.
  - constructor; [reflexivity|].
    apply Forall_forall. intros p Hp.
    apply in_map_iff in Hp as (x & <- & _). reflexivity.
Qed.

(** X10. The pool of numbering definitions holds the reference "list-n"
    exactly when n < 100: an ordered list preceded by 100 or more ordered
    lists in its section refers to a definition the document does not
    have. *)
Theorem X10_reference_in_pool_iff_below_100 :
  forall n : nat,
    In (listRef n) (map configReference numberingConfigs) <-> n < 100.
Proof.
  intros n.
  assert (E : map configReference numberingConfigs
              = map listRef (seq 0 100)) by reflexivity.
  rewrite E, in_map_iff. split.
  - intros (m & Hm & Hin). apply listRef_inj in Hm. subst m.
    apply in_seq in Hin. lia.
  - intros H. exists n. split; [reflexivity|]. apply in_seq. lia.
Qed.

(** X11. The lines logged for a section are one "Unhandled token type"
    line per unrecognized token of the section's token sequence, in token
    order, after what was logged before; tokens of a handled kind and
    tokens nested in a blockquote log nothing. *)
Theorem X11_one_diagnostic_per_unrecognized_token :
  forall (log : list string) (tokens : list Token),
    logged (run (initSection log) tokens)
    = log ++ map unhandledLine (otherTypes tokens).
Proof.
  intros log tokens. rewrite logged_run. reflexivity.
Qed.

(** X12. A heading token pushes exactly one block that carries the
    token's text as it is, with no run: inline markers in a heading are not
    interpreted.  The block has a heading style exactly when the depth is
    between 1 and 6, and two depths in that range never share a style. *)
Theorem X12_heading_block :
  forall (st : SectionState) (depth : nat) (t : jsstring),
    let st' := step st (THeading depth t) in
    (exists p,
        children st' = children st ++ [p]
        /\ paraText p = Some t
        /\ paraChildren p = []
        /\ (heading p <> None <-> 1 <= depth <= 6))
    /\ (forall d, 1 <= d <= 6 ->
          headingLevelMap d = headingLevelMap depth -> d = depth).
Proof.
  intros st depth t st'. split.
  - exists (headingParagraph depth t). subst st'. unfold step. cbn.
    rewrite (children_transition st (THeading depth t)) by discriminate.
    split; [reflexivity|]. split; [reflexivity|]. split; [reflexivity|].
    cbn [heading headingParagraph]. split.
    + intros Hs.
      do 7 (try destruct depth as [|depth]); try lia; now elim Hs.
    + intros [H1 H6].
      do 7 (try destruct depth as [|depth]); try lia; discriminate.
  - intros d Hd E.
    assert (Hc : d = 1 \/ d = 2 \/ d = 3 \/ d = 4 \/ d = 5 \/ d = 6) by lia.
    destruct Hc as [->|[->|[->|[->|[->| ->]]]]];
      do 7 (try destruct depth as [|depth]);
      try discriminate E; reflexivity.
Qed.

Lemma X12_heading_block_witness :
  let st' := step (initSection []) (THeading 2 (str "**T**")) in
  (exists p,
      children st' = children (initSection []) ++ [p]
      /\ paraText p = Some (str "**T**")
      /\ paraChildren p = []
      /\ (heading p <> None <-> 1 <= 2 <= 6))
  /\ (forall d, 1 <= d <= 6 ->
        headingLevelMap d = headingLevelMap 2 -> d = 2).
Proof.
  exact (X12_heading_block (initSection []) 2 (str "**T**")).
Defined.

(** X13. A table token pushes exactly one block holding one table: its
    first row has one shaded cell per header cell, each following row has
    one unshaded cell per cell of the matching body row, and every cell
    holds the runs of its own source cell's text. *)
Theorem X13_table_block :
  forall (st : SectionState) (header : list Cell) (body : list (list Cell)),
    let st' := step st (TTable header body) in
    exists tb,
      children st' = children st ++ [tableParagraph tb]
      /\ map (@length TableCell) (rows tb)
         = length header :: map (@length Cell) body
      /\ (forall j cell,
             nth_error header j = Some cell ->
             exists row0,
               nth_error (rows tb) 0 = Some row0
               /\ nth_error row0 j
                  = Some (mkTableCell (processFormattedText (cellText cell))
                            (mkSpacing 40 40 None None)
                            (Some (mkShading None "EEEEEE"))))
      /\ (forall i j row cell,
             nth_error body i = Some row -> nth_error row j = Some cell ->
             exists trow,
               nth_error (rows tb) (S i) = Some trow
               /\ nth_error trow j
                  = Some (mkTableCell (processFormattedText (cellText cell))
                            (mkSpacing 40 40 None None) None)).
Proof.
  intros st header body st'. exists (tableOf header body).
  split; [|split; [|split]].
  - subst st'. unfold step. cbn.
    now rewrite (children_transition st (TTable header body)) by discriminate.
  - cbn [tableOf rows map]. rewrite length_map, map_map. f_equal.
    apply map_ext. intros row. apply length_map.
  - intros j cell Hj. exists (map headerCell header).
    split; [reflexivity|]. now rewrite nth_error_map, Hj.
  - intros i j row cell Hi Hj. exists (map bodyCell row). split.
    + cbn [tableOf rows nth_error]. now rewrite nth_error_map, Hi.
    + now rewrite nth_error_map, Hj.
Qed.

Lemma X13_table_block_witness :
  let header := [mkCell (str "a"); mkCell (str "b")] in
  let body := [[mkCell (str "1"); mkCell (str "2")];
               [mkCell (str "3"); mkCell (str "4")]] in
  let st' := step (initSection []) (TTable header body) in
  exists tb,
    children st' = children (initSection []) ++ [tableParagraph tb]
    /\ map (@length TableCell) (rows tb)
       = length header :: map (@length Cell) body
    /\ (forall j cell,
           nth_error header j = Some cell ->
           exists row0,
             nth_error (rows tb) 0 = Some row0
             /\ nth_error row0 j
                = Some (mkTableCell (processFormattedText (cellText cell))
                          (mkSpacing 40 40 None None)
                          (Some (mkShading None "EEEEEE"))))
    /\ (forall i j row cell,
           nth_error body i = Some row -> nth_error row j = Some cell ->
           exists trow,
             nth_error (rows tb) (S i) = Some trow
             /\ nth_error trow j
                = Some (mkTableCell (processFormattedText (cellText cell))
                          (mkSpacing 40 40 None None) None)).
Proof.
  exact (X13_table_block (initSection [])
           [mkCell (str "a"); mkCell (str "b")]
           [[mkCell (str "1"); mkCell (str "2")];
            [mkCell (str "3"); mkCell (str "4")]]).
Defined.

(* ================================================================== *)
(** * Further properties of the document assembler *)
(* ================================================================== *)

Section Sections.

Lemma splitBreaks_not_nil (s cur : jsstring) : splitBreaks s cur <> [].
Proof.
  pose proof (splitBreaks_length_bounded (length s) s cur (le_n _)) as H.
  intros E. rewrite E in H. discriminate H.
Qed.

Lemma joinBreaks_cons (section : jsstring) (rest : list jsstring) :
  rest <> [] ->
  joinBreaks (section :: rest)
  = section ++ CUSTOM_PARAGRAPH_BREAK ++ joinBreaks rest.
Proof. intros H. destruct rest; [congruence|reflexivity]. Qed.

Lemma joinBreaks_splitBreaks_bounded (n : nat) :
  forall s cur, length s <= n -> joinBreaks (splitBreaks s cur) = cur ++ s.
Proof.
  induction n as [|n IH]; intros s cur Hn.
  - destruct s; [simpl; now rewrite app_nil_r|simpl in Hn; lia].
  - destruct s as [|c [|d s]];
      [simpl; now rewrite app_nil_r|reflexivity|].
    rewrite splitBreaks_cons2. simpl in Hn.
    destruct (Ascii.eqb c "\" && Ascii.eqb d "p") eqn:E.
    + apply andb_prop in E as [Ec Ed].
      apply Ascii.eqb_eq in Ec, Ed. subst c d.
      rewrite joinBreaks_cons by apply splitBreaks_not_nil.
      rewrite IH by lia. reflexivity.
    + rewrite IH by (simpl; lia). now rewrite <- app_assoc.
Qed.

Lemma countBreaks_snoc (x : jsstring) (c d : ascii) :
  countBreaks (x ++ [c; d])
  = countBreaks (x ++ [c])
    + (if Ascii.eqb c "\" && Ascii.eqb d "p" then 1 else 0).
Proof.
  induction x as [|a x IH].
  - cbn. lia.
  - destruct x as [|b x].
    + change (([a] ++ [c; d])) with (a :: c :: [d]).
      change ([a] ++ [c]) with (a :: [c]).
      rewrite !countBreaks_cons2.
      change (countBreaks [c]) with 0. change (countBreaks [d]) with 0.
      lia.
    + change ((a :: b :: x) ++ [c; d]) with (a :: b :: (x ++ [c; d])).
      change ((a :: b :: x) ++ [c]) with (a :: b :: (x ++ [c])).
      rewrite !countBreaks_cons2.
      change (b :: x ++ [c; d]) with ((b :: x) ++ [c; d]).
      change (b :: x ++ [c]) with ((b :: x) ++ [c]).
      rewrite IH. lia.
Qed.

Lemma countBreaks_snoc_zero (x : jsstring) (c : ascii) :
  countBreaks (x ++ [c]) = 0 -> countBreaks x = 0.
Proof.
  destruct x as [|a x] using rev_ind; [reflexivity|].
  rewrite <- app_assoc. cbn [app]. rewrite countBreaks_snoc. lia.
Qed.

(** No section holds the marker: [cur] holds none, and its last code unit
    and the next one of [s] do not make one. *)
Lemma splitBreaks_sections_bounded (n : nat) :
  forall s cur,
    length s <= n -> countBreaks (cur ++ firstn 1 s) = 0 ->
    Forall (fun section => countBreaks section = 0) (splitBreaks s cur).
Proof.
  induction n as [|n IH]; intros s cur Hn Hc.
  - destruct s; [|simpl in Hn; lia].
    simpl in *. rewrite app_nil_r in Hc. now constructor.
  - destruct s as [|c [|d s]].
    + simpl in *. rewrite app_nil_r in Hc. now constructor.
    + simpl in *. now constructor.
    + rewrite splitBreaks_cons2. cbn [firstn] in Hc. simpl in Hn.
      destruct (Ascii.eqb c "\" && Ascii.eqb d "p") eqn:E.
      * constructor; [now apply countBreaks_snoc_zero in Hc|].
        apply IH; [lia|]. now destruct s.
      * apply IH; [simpl; lia|]. cbn [firstn].
        rewrite <- app_assoc. cbn [app].
        rewrite countBreaks_snoc, E. lia.
Qed.

Lemma splitBreaks_no_marker (md : jsstring) :
  countBreaks md = 0 -> splitBreaks md [] = [md].
Proof.
  intros H.
  pose proof (splitBreaks_length md) as Hl. rewrite H in Hl.
  pose proof (joinBreaks_splitBreaks_bounded (length md) md [] (le_n _))
    as Hj.
  destruct (splitBreaks md []) as [|x [|y l]]; try discriminate Hl.
  simpl in Hj. now subst x.
Qed.

Lemma splitBreaks_app_bounded (n : nat) :
  forall a b cur,
    length a <= n ->
    splitBreaks (a ++ CUSTOM_PARAGRAPH_BREAK ++ b) cur
    = splitBreaks a cur ++ splitBreaks b [].
Proof.
  induction n as [|n IH]; intros a b cur Hn.
  - destruct a; [reflexivity|simpl in Hn; lia].
  - destruct a as [|c [|d a]]; [reflexivity| |].
    + change ([c] ++ CUSTOM_PARAGRAPH_BREAK ++ b)
        with (c :: "\"%char :: "p"%char :: b).
      rewrite splitBreaks_cons2.
      change (Ascii.eqb "\" "p") with false. rewrite andb_false_r.
      reflexivity.
    + change ((c :: d :: a) ++ CUSTOM_PARAGRAPH_BREAK ++ b)
        with (c :: d :: (a ++ CUSTOM_PARAGRAPH_BREAK ++ b)).
      rewrite !splitBreaks_cons2. simpl in Hn.
      destruct (Ascii.eqb c "\" && Ascii.eqb d "p").
      * rewrite IH by lia. reflexivity.
      * change (d :: a ++ CUSTOM_PARAGRAPH_BREAK ++ b)
          with ((d :: a) ++ CUSTOM_PARAGRAPH_BREAK ++ b).
        apply IH. simpl. lia.
Qed.

End Sections.

Section SectionsLoop.

Variable lexer : jsstring -> list Token.

Lemma sectionsLoop_log (sections : list jsstring) :
  forall n sectionIndex allChildren log,
    snd (sectionsLoop lexer n sectionIndex sections allChildren log)
    = log ++ sectionsLog lexer sections.
Proof.
  unfold sectionsLog.
  induction sections as [|section rest IH];
    intros n sectionIndex allChildren log; simpl.
  - now rewrite app_nil_r.
  - fold (blank section). destruct (blank section).
    + now rewrite IH.
    + rewrite IH, logged_run. cbn. now rewrite <- app_assoc.
Qed.

Lemma diagnostics_log (md : jsstring) :
  diagnostics (convertMarkdownToDocx lexer md)
  = sectionsLog lexer (splitBreaks md []).
Proof. now rewrite diagnostics_convert, sectionsLoop_log. Qed.

Lemma sectionsBlocks_app (A B : list jsstring) :
  forall n sectionIndex,
    sectionsBlocks lexer n sectionIndex (A ++ B)
    = sectionsBlocks lexer n sectionIndex A
      ++ sectionsBlocks lexer n (sectionIndex + length A) B.
Proof.
  induction A as [|section A IH]; intros n sectionIndex.
  - simpl. now rewrite Nat.add_0_r.
  - cbn [app sectionsBlocks length]. rewrite IH, <- app_assoc.
    now rewrite Nat.add_succ_r.
Qed.

(** Sections that are followed by more sections: only the last of them
    sees the difference. *)
Lemma sectionsBlocks_not_last (A : list jsstring) :
  forall n m sectionIndex,
    A <> [] -> sectionIndex + length A = m -> m < n ->
    sectionsBlocks lexer n sectionIndex A
    = sectionsBlocks lexer m sectionIndex A
      ++ (if blank (last A []) then [] else [sectionBreak]).
Proof.
  induction A as [|section A IH]; intros n m sectionIndex Hne Hm Hlt;
    [congruence|].
  destruct A as [|next A].
  - cbn [sectionsBlocks last]. cbn [length] in Hm.
    destruct (blank section); [now rewrite !app_nil_r|].
    destruct (Nat.ltb_spec sectionIndex (n - 1)); [|lia].
    destruct (Nat.ltb_spec sectionIndex (m - 1)); [lia|].
    now rewrite !app_nil_r.
  - change (last (section :: next :: A) []) with (last (next :: A) []).
    change (sectionsBlocks lexer n sectionIndex (section :: next :: A))
      with ((if blank section
             then if 0 <? sectionIndex then [sectionBreak] else []
             else translateSection (lexer (trim section))
                  ++ if sectionIndex <? n - 1 then [sectionBreak] else [])
            ++ sectionsBlocks lexer n (S sectionIndex) (next :: A)).
    change (sectionsBlocks lexer m sectionIndex (section :: next :: A))
      with ((if blank section
             then if 0 <? sectionIndex then [sectionBreak] else []
             else translateSection (lexer (trim section))
                  ++ if sectionIndex <? m - 1 then [sectionBreak] else [])
            ++ sectionsBlocks lexer m (S sectionIndex) (next :: A)).
    cbn [length] in Hm.
    rewrite (IH n m (S sectionIndex))
      by (discriminate || (cbn [length]; lia)).
    destruct (Nat.ltb_spec sectionIndex (n - 1)); [|lia].
    destruct (Nat.ltb_spec sectionIndex (m - 1)); [|lia].
    now rewrite <- !app_assoc.
Qed.

(** Sections that are preceded by [k] more sections: past the first of
    them nothing changes. *)
Lemma sectionsBlocks_shift (B : list jsstring) :
  forall k m j,
    1 <= j ->
    sectionsBlocks lexer (k + m) (k + j) B = sectionsBlocks lexer m j B.
Proof.
  induction B as [|section B IH]; intros k m j Hj; [reflexivity|].
  cbn [sectionsBlocks]. rewrite <- Nat.add_succ_r, IH by lia.
  destruct (blank section).
  - destruct (Nat.ltb_spec 0 (k + j)); [|lia].
    destruct (Nat.ltb_spec 0 j); [|lia]. reflexivity.
  - destruct (Nat.ltb_spec (k + j) (k + m - 1));
      destruct (Nat.ltb_spec j (m - 1)); try lia; reflexivity.
Qed.

Lemma sectionsBlocks_not_first (B : list jsstring) (k : nat) :
  1 <= k -> B <> [] ->
  sectionsBlocks lexer (k + length B) k B
  = (if blank (hd [] B) then [sectionBreak] else [])
    ++ sectionsBlocks lexer (length B) 0 B.
Proof.
  intros Hk Hne. destruct B as [|section B]; [congruence|].
  cbn [sectionsBlocks hd].
  replace (S k) with (k + 1) by lia.
  rewrite sectionsBlocks_shift by lia.
  destruct (blank section).
  - destruct (Nat.ltb_spec 0 k); [|lia]. reflexivity.
  - cbn [length].
    destruct (Nat.ltb_spec k (k + S (length B) - 1));
      destruct (Nat.ltb_spec 0 (S (length B) - 1)); try lia; reflexivity.
Qed.

(** A block of the document is an inter-section Spacer or a block of one
    of its non-blank sections. *)
Lemma sectionsBlocks_In (sections : list jsstring) :
  forall n sectionIndex p,
    In p (sectionsBlocks lexer n sectionIndex sections) ->
    p = sectionBreak
    \/ exists section,
         In section sections /\ blank section = false
         /\ In p (translateSection (lexer (trim section))).
Proof.
  induction sections as [|section rest IH]; intros n sectionIndex p Hin;
    [destruct Hin|].
  cbn [sectionsBlocks] in Hin. apply in_app_or in Hin as [Hin|Hin].
  - destruct (blank section) eqn:Eb.
    + destruct (0 <? sectionIndex); [|destruct Hin].
      destruct Hin as [<-|[]]. now left.
    + apply in_app_or in Hin as [Hin|Hin].
      * right. exists section. repeat split; [now left|exact Eb|exact Hin].
      * destruct (sectionIndex <? n - 1); [|destruct Hin].
        destruct Hin as [<-|[]]. now left.
  - destruct (IH _ _ _ Hin) as [->|(s & Hs & Hb & Hp)]; [now left|].
    right. exists s. repeat split; [now right|exact Hb|exact Hp].
Qed.

End SectionsLoop.

Section Trim.

Lemma trimStart_idempotent (s : jsstring) :
  trimStart (trimStart s) = trimStart s.
Proof.
  induction s as [|c s IH]; [reflexivity|].
  simpl. destruct (isWhiteSpace c) eqn:E; [exact IH|].
  simpl. now rewrite E.
Qed.

Lemma trimStart_head (s r : jsstring) (c : ascii) :
  trimStart s = c :: r -> isWhiteSpace c = false.
Proof.
  induction s as [|d s IH]; [discriminate|].
  simpl. destruct (isWhiteSpace d) eqn:E; [exact IH|].
  intros H. inversion H; subst. exact E.
Qed.

Lemma trimStart_snoc (x : jsstring) (c : ascii) :
  isWhiteSpace c = false -> trimStart (x ++ [c]) = trimStart x ++ [c].
Proof.
  intros Hc. induction x as [|d x IH]; simpl.
  - now rewrite Hc.
  - destruct (isWhiteSpace d); [exact IH|reflexivity].
Qed.

Lemma trimEnd_head (c : ascii) (u : jsstring) :
  isWhiteSpace c = false ->
  trimEnd (c :: u) = c :: rev (trimStart (rev u)).
Proof.
  intros Hc. unfold trimEnd. cbn [rev].
  rewrite trimStart_snoc by exact Hc.
  rewrite rev_app_distr. reflexivity.
Qed.

Lemma trimEnd_idempotent (s : jsstring) : trimEnd (trimEnd s) = trimEnd s.
Proof.
  unfold trimEnd. now rewrite rev_involutive, trimStart_idempotent.
Qed.

Lemma trim_idempotent (s : jsstring) : trim (trim s) = trim s.
Proof.
  unfold trim. destruct (trimStart s) as [|c u] eqn:E; [reflexivity|].
  pose proof (trimStart_head s u c E) as Hc.
  rewrite (trimEnd_head c u Hc). cbn [trimStart]. rewrite Hc.
  rewrite <- (trimEnd_head c u Hc). apply trimEnd_idempotent.
Qed.

End Trim.

Section Documents.

Lemma pool_has_listRef (n : nat) :
  n < 100 -> In (listRef n) (map configReference numberingConfigs).
Proof.
  intros H.
  assert (E : map configReference numberingConfigs
              = map listRef (seq 0 100)) by reflexivity.
  rewrite E. apply in_map, in_seq. lia.
Qed.

Lemma sectionsLoop_ext (lexer1 lexer2 : jsstring -> list Token) :
  (forall s, s <> [] -> trim s = s -> lexer1 s = lexer2 s) ->
  forall sections n sectionIndex allChildren log,
    sectionsLoop lexer1 n sectionIndex sections allChildren log
    = sectionsLoop lexer2 n sectionIndex sections allChildren log.
Proof.
  intros Hext.
  induction sections as [|section rest IH];
    intros n sectionIndex allChildren log; [reflexivity|].
  cbn [sectionsLoop].
  destruct (isEmpty (trim section)) eqn:E; [apply IH|].
  rewrite (Hext (trim section)).
  - apply IH.
  - intros H. rewrite H in E. discriminate E.
  - apply trim_idempotent.
Qed.

End Documents.

(** X14. Splitting on the break marker loses nothing: the sections put
    back together with the marker between them are the input, and no
    section holds the marker. *)
Theorem X14_sections_rebuild_the_input :
  forall md : jsstring,
    joinBreaks (splitBreaks md []) = md
    /\ Forall (fun section => countBreaks section = 0) (splitBreaks md []).
Proof.
  intros md. split.
  - now rewrite (joinBreaks_splitBreaks_bounded (length md)).
  - apply (splitBreaks_sections_bounded (length md)); [lia|].
    now destruct md.
Qed.

(** X15. An input without break marker is one section: the document
    holds that section's blocks and no inter-section Spacer, or nothing at
    all when the input is blank, and the tokenizer is handed the trimmed
    input. *)
Theorem X15_no_marker_single_section :
  forall (lexer : jsstring -> list Token) (md : jsstring),
    countBreaks md = 0 ->
    docChildren (convertMarkdownToDocx lexer md)
    = (if blank md then [] else translateSection (lexer (trim md)))
    /\ diagnostics (convertMarkdownToDocx lexer md)
       = (if blank md then []
          else map unhandledLine (otherTypes (lexer (trim md))))
    /\ sectionBreaks (docChildren (convertMarkdownToDocx lexer md)) = 0.
Proof.
  intros lexer md H.
  assert (Hc : docChildren (convertMarkdownToDocx lexer md)
               = (if blank md then []
                  else translateSection (lexer (trim md)))).
  { rewrite docChildren_blocks, (splitBreaks_no_marker md H).
    cbn. destruct (blank md); now rewrite ?app_nil_r. }
  split; [exact Hc|]. split.
  - rewrite diagnostics_log, (splitBreaks_no_marker md H).
    unfold sectionsLog. cbn. destruct (blank md); now rewrite ?app_nil_r.
  - rewrite Hc. destruct (blank md); [reflexivity|].
    apply count_occ_not_In. unfold translateSection.
    apply run_no_sectionBreak.
Qed.

Lemma X15_no_marker_single_section_witness :
  docChildren (convertMarkdownToDocx paragraphLexer (str " a\b "))
  = (if blank (str " a\b ") then []
     else translateSection (paragraphLexer (trim (str " a\b "))))
  /\ diagnostics (convertMarkdownToDocx paragraphLexer (str " a\b "))
     = (if blank (str " a\b ") then []
        else map unhandledLine
               (otherTypes (paragraphLexer (trim (str " a\b ")))))
  /\ sectionBreaks
       (docChildren (convertMarkdownToDocx paragraphLexer (str " a\b "))) = 0.
Proof.
  apply (X15_no_marker_single_section paragraphLexer (str " a\b ")).
  reflexivity.
Defined.

(** X16. Converting two inputs joined by the break marker gives the blocks
    of the first, then an inter-section Spacer when the first input's last
    section is not blank, then one when the second input's first section is
    blank, then the blocks of the second; the diagnostics are those of the
    first followed by those of the second.  The sections of one input
    never change the blocks of the other. *)
Theorem X16_marker_joins_documents :
  forall (lexer : jsstring -> list Token) (a b : jsstring),
    let doc := convertMarkdownToDocx lexer in
    docChildren (doc (a ++ CUSTOM_PARAGRAPH_BREAK ++ b))
    = docChildren (doc a)
      ++ (if blank (last (splitBreaks a []) []) then [] else [sectionBreak])
      ++ (if blank (hd [] (splitBreaks b [])) then [sectionBreak] else [])
      ++ docChildren (doc b)
    /\ diagnostics (doc (a ++ CUSTOM_PARAGRAPH_BREAK ++ b))
       = diagnostics (doc a) ++ diagnostics (doc b).
Proof.
  intros lexer a b doc. subst doc.
  rewrite !docChildren_blocks, !diagnostics_log.
  rewrite (splitBreaks_app_bounded (length a) a b [] (le_n _)).
  pose proof (splitBreaks_not_nil a []) as HA.
  pose proof (splitBreaks_not_nil b []) as HB.
  set (A := splitBreaks a []) in *. set (B := splitBreaks b []) in *.
  assert (LA : 1 <= length A) by (destruct A; [congruence|simpl; lia]).
  assert (LB : 1 <= length B) by (destruct B; [congruence|simpl; lia]).
  split.
  - rewrite length_app, sectionsBlocks_app. cbn [Nat.add].
    rewrite (sectionsBlocks_not_last lexer A (length A + length B)
               (length A) 0 HA eq_refl) by lia.
    rewrite (sectionsBlocks_not_first lexer B (length A) LA HB).
    now rewrite <- !app_assoc.
  - unfold sectionsLog. apply flat_map_app.
Qed.

(** X17. The tokenizer is only ever handed section texts that are not
    empty and have no white space at either end: two tokenizers that
    agree on such texts give the same document on every input. *)
Theorem X17_tokenizer_sees_trimmed_sections :
  forall lexer1 lexer2 : jsstring -> list Token,
    (forall s, s <> [] -> trim s = s -> lexer1 s = lexer2 s) ->
    forall md : jsstring,
      convertMarkdownToDocx lexer1 md = convertMarkdownToDocx lexer2 md.
Proof.
  intros lexer1 lexer2 Hext md. unfold convertMarkdownToDocx.
  now rewrite (sectionsLoop_ext lexer1 lexer2 Hext).
Qed.

Lemma X17_tokenizer_sees_trimmed_sections_witness :
  convertMarkdownToDocx paragraphLexer (str " a \p")
  = convertMarkdownToDocx
      (fun s => if isEmpty s then [THr] else [TParagraph s])
      (str " a \p").
Proof.
  apply X17_tokenizer_sees_trimmed_sections.
  intros s Hs _. now destruct s.
Defined.

(** X18. When no section holds more than 100 ordered lists, every
    numbering reference carried by a block of the document is one of the
    references of the document's numbering definitions. *)
Theorem X18_references_are_defined :
  forall (lexer : jsstring -> list Token) (md : jsstring),
    (forall section,
        In section (splitBreaks md []) -> blank section = false ->
        orderedLists (lexer (trim section)) <= 100) ->
    forall p nr,
      In p (docChildren (convertMarkdownToDocx lexer md)) ->
      numbering p = Some nr ->
      In (reference nr)
        (map configReference
           (docNumbering (convertMarkdownToDocx lexer md))).
Proof.
  intros lexer md Hle p nr Hin Hnr.
  rewrite numbering_convert. rewrite docChildren_blocks in Hin.
  apply sectionsBlocks_In in Hin as [->|(section & Hs & Hb & Hp)];
    [discriminate Hnr|].
  pose proof (refsBelow_init [] (lexer (trim section)) p nr Hp Hnr)
    as (j & Hj & Ej).
  rewrite listCounter_run in Hj. cbn in Hj.
  specialize (Hle section Hs Hb).
  rewrite Ej. apply pool_has_listRef. lia.
Qed.

Lemma X18_references_are_defined_witness :
  In "list-0"
    (map configReference
       (docNumbering
          (convertMarkdownToDocx orderedListLexer (str "1. a\p1. b")))).
Proof.
  apply (X18_references_are_defined orderedListLexer (str "1. a\p1. b"))
    with (p := listItemParagraph true (Some "list-0") true
                 [plainRun (str "a")])
         (nr := mkNumberingRef "list-0" 0).
  - intros section _ _. cbn. lia.
  - left. reflexivity.
  - reflexivity.
Defined.

Section Accounting.

Lemma isSpacer_blankSpacer : isSpacer blankSpacer = true.
Proof. reflexivity. Qed.

Lemma isSpacer_false (p : Paragraph) : p <> blankSpacer -> isSpacer p = false.
Proof.
  intros H. unfold isSpacer. now destruct (Paragraph_eq_dec p blankSpacer).
Qed.

Lemma contentBlocks_app (ps qs : list Paragraph) :
  contentBlocks (ps ++ qs) = contentBlocks ps ++ contentBlocks qs.
Proof. apply filter_app. Qed.

Lemma contentBlocks_all (ps : list Paragraph) :
  Forall (fun p => p <> blankSpacer) ps -> contentBlocks ps = ps.
Proof.
  induction 1 as [|p ps Hp _ IH]; [reflexivity|].
  unfold contentBlocks. cbn [filter]. rewrite (isSpacer_false p Hp).
  cbn [negb]. f_equal. exact IH.
Qed.

Lemma contentBlocks_transition (st : SectionState) (t : Token) :
  contentBlocks (children (transition st t)) = contentBlocks (children st).
Proof.
  unfold transition. split_ifs; cbn; try reflexivity.
  rewrite contentBlocks_app. cbn. apply app_nil_r.
Qed.

(** The blocks of a [case]: as many as the token counts, none a Spacer. *)
Lemma dispatch_blocks (st : SectionState) (t : Token) :
  exists more,
    children (dispatch st t) = children st ++ more
    /\ length more = blockCount t
    /\ Forall (fun p => p <> blankSpacer) more.
Proof.
  destruct t as [|c|d h|hd bd| |qs|ordered items|p|ty]; cbn;
    try (eexists; split; [reflexivity|split; [reflexivity|]];
         repeat constructor; discriminate);
    try (exists []; split; [now rewrite app_nil_r|split; constructor]).
  - rewrite quoteLoop_paragraphs. eexists. split; [reflexivity|].
    split; [apply length_map|].
    apply Forall_forall. intros q Hq.
    apply in_map_iff in Hq as (x & <- & _). discriminate.
  - assert (E : forall r,
               exists more,
                 listItemsLoop ordered r items true (children st)
                 = children st ++ more
                 /\ length more = length items
                 /\ Forall (fun p => p <> blankSpacer) more).
    { intros r. destruct items as [|item rest].
      - exists []. split; [simpl; now rewrite app_nil_r|split; constructor].
      - rewrite listItemsLoop_first. eexists. split; [reflexivity|].
        split; [cbn [length]; now rewrite length_map|].
        constructor; [discriminate|].
        apply Forall_forall. intros q Hq.
        apply in_map_iff in Hq as (x & <- & _). discriminate. }
    destruct ordered; cbn; apply E.
Qed.

Lemma contentBlocks_step (st : SectionState) (t : Token) :
  length (contentBlocks (children (step st t)))
  = length (contentBlocks (children st)) + blockCount t.
Proof.
  destruct (dispatch_blocks (transition st t) t) as (more & E & Hl & Hn).
  unfold step. cbn. rewrite E, contentBlocks_app, length_app.
  rewrite contentBlocks_transition, (contentBlocks_all more Hn). lia.
Qed.

Lemma contentBlocks_run (ts : list Token) :
  forall st,
    length (contentBlocks (children (run st ts)))
    = length (contentBlocks (children st)) + list_sum (map blockCount ts).
Proof.
  induction ts as [|t ts IH]; intros st; [simpl; lia|].
  rewrite run_cons, IH, contentBlocks_step.
  cbn [map list_sum fold_right]. fold (list_sum (map blockCount ts)). lia.
Qed.

Lemma trimStart_nil_inv (s : jsstring) :
  trimStart s = [] -> forallb isWhiteSpace s = true.
Proof.
  induction s as [|c s IH]; [reflexivity|].
  simpl. destruct (isWhiteSpace c); [exact IH|discriminate].
Qed.

Lemma trimEnd_nil_inv (s : jsstring) :
  trimEnd s = [] -> forallb isWhiteSpace s = true.
Proof.
  unfold trimEnd. intros H.
  apply (f_equal (@rev ascii)) in H. rewrite rev_involutive in H.
  apply trimStart_nil_inv in H. rewrite forallb_forall in H.
  apply forallb_forall. intros c Hc. apply H. now apply in_rev in Hc.
Qed.

End Accounting.

(** X19. Every block of a section is accounted for: the blocks that are
    not Spacers are as many as the tokens call for, one per heading,
    paragraph, code, rule and table token, one per item of a list token,
    one per paragraph token nested in a blockquote token, none for a blank
    or an unrecognized token. *)
Theorem X19_blocks_are_accounted_for :
  forall tokens : list Token,
    length (contentBlocks (translateSection tokens))
    = list_sum (map blockCount tokens).
Proof.
  intros tokens. unfold translateSection.
  rewrite contentBlocks_run. reflexivity.
Qed.

(** X20. A section is skipped, and its text never tokenized, exactly when
    it is empty or made of white space only. *)
Theorem X20_blank_section_iff_white_space :
  forall section : jsstring,
    blank section = forallb isWhiteSpace section.
Proof.
  intros section. unfold blank.
  destruct (forallb isWhiteSpace section) eqn:E.
  - now rewrite (trim_blank section E).
  - destruct (trim section) as [|c r] eqn:Et; [|reflexivity].
    exfalso. unfold trim in Et. apply trimEnd_nil_inv in Et.
    assert (H : forall s, forallb isWhiteSpace (trimStart s) = true ->
                          forallb isWhiteSpace s = true).
    { induction s as [|d s IH]; [reflexivity|].
      simpl. destruct (isWhiteSpace d) eqn:Ed; [exact IH|].
      simpl. now rewrite Ed. }
    rewrite (H section Et) in E. discriminate E.
Qed.
